(** * The view-triggered animated counter of the landing pages

    Both pages of the repository ([src/app/page.tsx] and its sibling page)
    define the same React component [Counter]: a number that runs from 0 to
    the [end] prop once the element scrolls into view, driven by
    [requestAnimationFrame].  This development embeds that component and
    the small part of the browser it talks to (the frame-request queue, the
    intersection latch of [useInView], the number formatter) and proves the
    properties of its specification.

    JavaScript numbers are modelled with exact arithmetic: a finite number
    is a rational, and the three special values are kept so that division
    by zero behaves as in the language (it yields [NaN] or an infinity and
    never throws).  Rounding of binary64 and the sign of zero are not
    modelled. *)

From Stdlib Require Import ZArith QArith Qround Lqa Lia List String Ascii Bool.
From Stdlib Require Import Qabs Qminmax Sorted DecimalString.
Import ListNotations.

Local Open Scope string_scope.
Local Open Scope list_scope.
Local Open Scope Q_scope.

(** ** JavaScript numbers *)

Module JS.

Inductive num : Type :=
| Fin (q : Q)
| PInf
| NInf
| NaN.

Definition of_Z (z : Z) : num := Fin (inject_Z z).

(** [a - b] *)
Definition sub (a b : num) : num :=
  match a, b with
  | NaN, _ | _, NaN => NaN
  | Fin x, Fin y => Fin (x - y)
  | PInf, PInf | NInf, NInf => NaN
  | PInf, _ | _, NInf => PInf
  | NInf, _ | _, PInf => NInf
  end.

(** The infinity with the sign of [x * y], for [x] finite and [y] infinite
    of sign [pos]; [NaN] for [0 * Infinity]. *)
Definition signed_inf (x : Q) (pos : bool) : num :=
  match x ?= 0 with
  | Eq => NaN
  | Gt => if pos then PInf else NInf
  | Lt => if pos then NInf else PInf
  end.

(** [a * b] *)
Definition mul (a b : num) : num :=
  match a, b with
  | NaN, _ | _, NaN => NaN
  | Fin x, Fin y => Fin (x * y)
  | Fin x, PInf | PInf, Fin x => signed_inf x true
  | Fin x, NInf | NInf, Fin x => signed_inf x false
  | PInf, PInf | NInf, NInf => PInf
  | PInf, NInf | NInf, PInf => NInf
  end.

(** [a / b]: a zero divisor gives [NaN] for [0 / 0] and an infinity
    otherwise; nothing is raised. *)
Definition div (a b : num) : num :=
  match a, b with
  | NaN, _ | _, NaN => NaN
  | Fin x, Fin y =>
      match y ?= 0 with
      | Eq => signed_inf x true
      | _ => Fin (x / y)
      end
  | Fin _, _ => Fin 0
  | PInf, Fin y => match y ?= 0 with Lt => NInf | _ => PInf end
  | NInf, Fin y => match y ?= 0 with Lt => PInf | _ => NInf end
  | _, _ => NaN
  end.

(** [Math.min(a, b)] *)
Definition min (a b : num) : num :=
  match a, b with
  | NaN, _ | _, NaN => NaN
  | NInf, _ | _, NInf => NInf
  | PInf, y => y
  | x, PInf => x
  | Fin x, Fin y => match x ?= y with Gt => Fin y | _ => Fin x end
  end.

(** [Math.floor(a)] *)
Definition floor (a : num) : num :=
  match a with
  | Fin x => of_Z (Qfloor x)
  | _ => a
  end.

(** [a < b]; every comparison with [NaN] is false. *)
Definition lt (a b : num) : bool :=
  match a, b with
  | NaN, _ | _, NaN => false
  | Fin x, Fin y => match x ?= y with Lt => true | _ => false end
  | NInf, NInf | PInf, _ => false
  | NInf, _ | _, PInf => true
  | Fin _, NInf => false
  end.

End JS.

Import JS.

(** ** Props *)

(** [interface CounterProps { end: number; duration?: number; suffix?: string }].
    [end] is a keyword here, hence [end_]. *)
Record CounterProps : Type := {
  end_ : num;
  duration : option num;
  suffix : option string
}.

(** The defaults of the destructuring pattern
    [({ end, duration = 2, suffix = '' })]. *)
Definition duration_of (p : CounterProps) : num :=
  match duration p with
  | Some d => d
  | None => Fin 2
  end.

Definition suffix_of (p : CounterProps) : string :=
  match suffix p with
  | Some s => s
  | None => EmptyString
  end.

(** The divisor of [animate]: [duration * 1000], the run's length in
    milliseconds. *)
Definition durationMs (p : CounterProps) : num :=
  mul (duration_of p) (Fin 1000).

(** ** State of one mounted instance

    The React state ([count], [isInView]), the two [let] variables of the
    effect closure ([startTime], [animationFrame]; [None] is [undefined]),
    whether the last run of the effect returned its cleanup function, and
    the browser's queue of frame requests.  [writes] and [starts] are
    history variables: the values passed to [setCount], newest first, and
    the number of times the effect got past its guard and started a run. *)
Record Counter : Type := {
  count : num;
  isInView : bool;
  mounted : bool;
  startTime : option Q;
  animationFrame : option nat;
  cleanup : bool;
  raf_queue : list nat;
  raf_next : nat;
  writes : list num;
  starts : nat
}.

Definition set_count v (st : Counter) : Counter :=
  {| count := v; isInView := isInView st; mounted := mounted st;
     startTime := startTime st; animationFrame := animationFrame st;
     cleanup := cleanup st; raf_queue := raf_queue st;
     raf_next := raf_next st; writes := writes st; starts := starts st |}.

Definition set_isInView v (st : Counter) : Counter :=
  {| count := count st; isInView := v; mounted := mounted st;
     startTime := startTime st; animationFrame := animationFrame st;
     cleanup := cleanup st; raf_queue := raf_queue st;
     raf_next := raf_next st; writes := writes st; starts := starts st |}.

Definition set_mounted v (st : Counter) : Counter :=
  {| count := count st; isInView := isInView st; mounted := v;
     startTime := startTime st; animationFrame := animationFrame st;
     cleanup := cleanup st; raf_queue := raf_queue st;
     raf_next := raf_next st; writes := writes st; starts := starts st |}.

Definition set_startTime v (st : Counter) : Counter :=
  {| count := count st; isInView := isInView st; mounted := mounted st;
     startTime := v; animationFrame := animationFrame st;
     cleanup := cleanup st; raf_queue := raf_queue st;
     raf_next := raf_next st; writes := writes st; starts := starts st |}.

Definition set_animationFrame v (st : Counter) : Counter :=
  {| count := count st; isInView := isInView st; mounted := mounted st;
     startTime := startTime st; animationFrame := v;
     cleanup := cleanup st; raf_queue := raf_queue st;
     raf_next := raf_next st; writes := writes st; starts := starts st |}.

Definition set_cleanup v (st : Counter) : Counter :=
  {| count := count st; isInView := isInView st; mounted := mounted st;
     startTime := startTime st; animationFrame := animationFrame st;
     cleanup := v; raf_queue := raf_queue st;
     raf_next := raf_next st; writes := writes st; starts := starts st |}.

Definition set_raf v n (st : Counter) : Counter :=
  {| count := count st; isInView := isInView st; mounted := mounted st;
     startTime := startTime st; animationFrame := animationFrame st;
     cleanup := cleanup st; raf_queue := v;
     raf_next := n; writes := writes st; starts := starts st |}.

Definition log_write v (st : Counter) : Counter :=
  {| count := count st; isInView := isInView st; mounted := mounted st;
     startTime := startTime st; animationFrame := animationFrame st;
     cleanup := cleanup st; raf_queue := raf_queue st;
     raf_next := raf_next st; writes := v :: writes st; starts := starts st |}.

Definition log_start (st : Counter) : Counter :=
  {| count := count st; isInView := isInView st; mounted := mounted st;
     startTime := startTime st; animationFrame := animationFrame st;
     cleanup := cleanup st; raf_queue := raf_queue st;
     raf_next := raf_next st; writes := writes st; starts := S (starts st) |}.

(** ** The browser and React primitives the component calls *)

(** [requestAnimationFrame(animate)]: the request is queued for the next
    frame and its handle returned.  Every request of an instance carries
    the same callback, so the queue holds the handles only. *)
Definition requestAnimationFrame (st : Counter) : nat * Counter :=
  (raf_next st, set_raf (raf_queue st ++ [raf_next st]) (S (raf_next st)) st).

(** [cancelAnimationFrame(handle)]: drops the request if it is still
    queued; any other argument, [undefined] included, is ignored. *)
Definition cancelAnimationFrame (h : option nat) (st : Counter) : Counter :=
  match h with
  | Some n => set_raf (filter (fun m => negb (Nat.eqb m n)) (raf_queue st))
                      (raf_next st) st
  | None => st
  end.

(** [setCount(v)] *)
Definition setCount (v : num) (st : Counter) : Counter :=
  log_write v (set_count v st).

(** ** The component *)

(** [if (!startTime) startTime = timestamp;] -- [undefined] and [0] are
    both falsy. *)
Definition latch (s : option Q) (timestamp : Q) : Q :=
  match s with
  | None => timestamp
  | Some s0 => if Qeq_bool s0 0 then timestamp else s0
  end.

(** [Math.min((timestamp - startTime) / (duration * 1000), 1)] *)
Definition progress_at (p : CounterProps) (s timestamp : Q) : num :=
  JS.min (div (sub (Fin timestamp) (Fin s)) (durationMs p)) (Fin 1).

(** [const animate = (timestamp: number) => { ... }] *)
Definition animate (p : CounterProps) (timestamp : Q) (st : Counter) : Counter :=
  let s := latch (startTime st) timestamp in
  let st := set_startTime (Some s) st in
  let progress := progress_at p s timestamp in
  let st := setCount (floor (mul progress (end_ p))) st in
  if lt progress (Fin 1) then
    let '(h, st) := requestAnimationFrame st in
    set_animationFrame (Some h) st
  else st.

(** The body of [useEffect(() => { ... }, [isInView, end, duration])]. *)
Definition effect (st : Counter) : Counter :=
  if negb (isInView st) then set_cleanup false st
  else
    let st := set_animationFrame None (set_startTime None st) in
    let '(h, st) := requestAnimationFrame (log_start st) in
    set_cleanup true (set_animationFrame (Some h) st).

(** [() => cancelAnimationFrame(animationFrame)], when the effect returned it. *)
Definition run_cleanup (st : Counter) : Counter :=
  if cleanup st then cancelAnimationFrame (animationFrame st) st else st.

(** First render and first run of the effect: [useState(0)], and
    [useInView] starts out false. *)
Definition mount : Counter :=
  effect {| count := Fin 0; isInView := false; mounted := true;
            startTime := None; animationFrame := None; cleanup := false;
            raf_queue := []; raf_next := 1%nat; writes := []; starts := 0 |}.

(** What happens to a mounted instance. *)
Inductive event : Type :=
| Intersect (visible : bool)   (* the intersection observer reports *)
| Frame (timestamp : Q)        (* the browser runs a display frame *)
| Unmount.

(** [useInView(ref, { once: true })]: the hook sets its state to true on the
    first report that the element is in view and stops observing, so a
    later report changes nothing.  The change of [isInView] re-renders the
    component; the dependency changed, so React runs the previous cleanup
    and then the effect. *)
Definition on_intersect (visible : bool) (st : Counter) : Counter :=
  if mounted st && visible && negb (isInView st)
  then effect (run_cleanup (set_isInView true st))
  else st.

(** A display frame: the browser takes the requests queued so far and runs
    each callback with the frame's timestamp; requests made meanwhile wait
    for the next frame. *)
Definition on_frame (p : CounterProps) (timestamp : Q) (st : Counter) : Counter :=
  fold_left (fun st (_ : nat) => animate p timestamp st)
            (raf_queue st) (set_raf [] (raf_next st) st).

Definition on_unmount (st : Counter) : Counter :=
  if mounted st then set_mounted false (run_cleanup st) else st.

Definition step (p : CounterProps) (st : Counter) (e : event) : Counter :=
  match e with
  | Intersect v => on_intersect v st
  | Frame t => on_frame p t st
  | Unmount => on_unmount st
  end.

Definition run (p : CounterProps) (evs : list event) (st : Counter) : Counter :=
  fold_left (step p) evs st.

(** ** Rendering

    [count.toLocaleString()] formats with the default locale of the
    runtime.  The locales modelled group the integer digits in threes and
    write Latin digits; they differ in the two separators.  A fraction is
    rounded to at most three digits, half away from zero. *)
Record Locale : Type := {
  group_separator : string;
  decimal_separator : string
}.

Definition en_US : Locale := {| group_separator := ","; decimal_separator := "." |}.
Definition de_DE : Locale := {| group_separator := "."; decimal_separator := "," |}.

Definition digits (n : Z) : string :=
  NilZero.string_of_uint (N.to_uint (Z.to_N n)).

(** A separator goes after every digit that is followed by a positive
    multiple of three digits. *)
Fixpoint grouped (sep : string) (ds : string) : string :=
  match ds with
  | EmptyString => EmptyString
  | String c rest =>
      let n := String.length rest in
      String c (if (0 <? n)%nat && (n mod 3 =? 0)%nat
                then sep ++ grouped sep rest
                else grouped sep rest)
  end.

(** The digits of a fraction given in thousandths, without trailing zeros. *)
Definition fraction_digits (m : Z) : string :=
  if (m mod 10 =? 0)%Z then
    if (m mod 100 =? 0)%Z then digits (m / 100) else
      digits (m / 100) ++ digits (m / 10 mod 10)
  else digits (m / 100) ++ digits (m / 10 mod 10) ++ digits (m mod 10).

Definition toLocaleString (L : Locale) (n : num) : string :=
  match n with
  | NaN => "NaN"
  | PInf => "∞"
  | NInf => "-∞"
  | Fin q =>
      let m := Qfloor (Qabs q * 1000 + (1 # 2)) in
      let sign := match Qcompare q 0 with Lt => "-" | _ => "" end in
      let whole := grouped (group_separator L) (digits (m / 1000)%Z) in
      let fraction :=
        if (m mod 1000 =? 0)%Z then ""
        else (decimal_separator L ++ fraction_digits (m mod 1000)%Z)%string in
      (sign ++ whole ++ fraction)%string
  end.

(** [<span ref={ref}>{count.toLocaleString()}{suffix}</span>] *)
Definition render (L : Locale) (p : CounterProps) (st : Counter) : string :=
  (toLocaleString L (count st) ++ suffix_of p)%string.

(** The sibling page's component takes no suffix:
    [<span ref={ref}>{count.toLocaleString()}</span>]. *)
Definition render_plain (L : Locale) (st : Counter) : string :=
  toLocaleString L (count st).

(** ** Notions used by the statements *)

(** The shape of every reachable state.  Nothing is written, queued or started while the element has not been
    seen; a run has been started once it has; and the queue holds at most
    the one request whose handle [animationFrame] remembers, which the
    cleanup of a mounted instance will cancel. *)
Record Inv (st : Counter) : Prop := {
  inv_idle :
    isInView st = false ->
    writes st = [] /\ count st = Fin 0 /\ starts st = 0%nat /\
    raf_queue st = [] /\ cleanup st = false;
  inv_started :
    isInView st = true -> starts st = 1%nat;
  inv_queue :
    raf_queue st = [] \/
    exists h, raf_queue st = [h] /\ animationFrame st = Some h /\
              cleanup st = true /\ mounted st = true /\ isInView st = true
}.

(** The element has been reported in view while the instance was mounted. *)
Fixpoint became_visible (evs : list event) : bool :=
  match evs with
  | [] => false
  | Intersect true :: _ => true
  | Unmount :: _ => false
  | _ :: rest => became_visible rest
  end.

(** The timestamps of the display frames of a trace, in order. *)
Fixpoint frame_times (evs : list event) : list Q :=
  match evs with
  | [] => []
  | Frame t :: rest => t :: frame_times rest
  | _ :: rest => frame_times rest
  end.

(** The upper clamp that [Math.min(x, 1)] applies to a finite [x]. *)
Definition clamp1 (x : Q) : Q :=
  match x ?= 1 with
  | Gt => 1
  | _ => x
  end.

(** Progress as the specification words it: the quotient clamped to
    [[0, 1]]. *)
Definition clamp01 (x : Q) : Q := Qmax 0 (Qmin x 1).

(** The displayed value the specification gives for a progress. *)
Definition displayed (target progress : Q) : Z := Qfloor (progress * target).

(** What [if (!startTime)] tests. *)
Definition unset (s : option Q) : bool :=
  match s with
  | None => true
  | Some s0 => Qeq_bool s0 0
  end.

(** The history of a run in terms of progress: the values written so far
    are the displayed values of a list of progresses (newest first), each in
    [[0, 1]], none larger than a newer one, and none larger than the
    progress the latched start gives at time [lo], a lower bound of the
    timestamps still to come.  While the start is unset all of them are 0. *)
Definition Trail (D : Q) (target : Z) (lo : Q) (st : Counter) : Prop :=
  exists ps : list Q,
    writes st = map (fun pr => of_Z (displayed (inject_Z target) pr)) ps /\
    count st = of_Z (displayed (inject_Z target) (hd 0 ps)) /\
    Forall (fun pr => 0 <= pr <= 1) ps /\
    StronglySorted (fun newer older => older <= newer) ps /\
    match startTime st with
    | Some s =>
        if Qeq_bool s 0 then Forall (fun pr => pr == 0) ps
        else s <= lo /\ Forall (fun pr => pr <= clamp1 ((lo - s) / D)) ps
    | None => Forall (fun pr => pr == 0) ps
    end.

(** A run on the frame timestamps [times 0], [times 1], ... stops
    scheduling: after some number of frames no request is queued. *)
Definition stops_scheduling (p : CounterProps) (times : nat -> Q) : Prop :=
  exists n,
    raf_queue (run p (Intersect true :: map (fun k => Frame (times k)) (seq 0 n))
                   mount) = [].

(** A display running at one frame every 16 ms. *)
Definition every_16ms (k : nat) : Q := inject_Z (16 * (Z.of_nat k + 1)).

(** ** Concrete instances and traces

    The hero counter of the sibling page, [<Counter end={12847} />]; the
    counter of the specification's scenario with a suffix; a counter that
    runs downwards for one second; and two counters with a duration that is
    not positive. *)
Definition hero : CounterProps :=
  {| end_ := of_Z 12847; duration := None; suffix := None |}.

Definition with_plus : CounterProps :=
  {| end_ := of_Z 284; duration := None; suffix := Some "+" |}.

Definition downward : CounterProps :=
  {| end_ := of_Z (-300); duration := Some (Fin 1); suffix := None |}.

Definition zero_duration : CounterProps :=
  {| end_ := of_Z 100; duration := Some (Fin 0); suffix := None |}.

Definition negative_duration : CounterProps :=
  {| end_ := of_Z 100; duration := Some (Fin (-1)); suffix := None |}.

(** The element is seen at once; frames arrive at 5, 1005 and 2005 ms. *)
Definition seen : list event := [Intersect true].
Definition first_tick : list event := [Intersect true; Frame 5].
Definition half_way : list event := [Intersect true; Frame 5; Frame 1005].
Definition full_run : list event :=
  [Intersect true; Frame 5; Frame 1005; Intersect false; Frame 2005; Frame 2021].

(** ** The rest of the two pages

    Strings are sequences of ASCII characters, as the pages' own texts are;
    [toLowerCase] and the class [\s] are modelled on that range. *)

Definition is_upper (c : ascii) : bool :=
  let n := nat_of_ascii c in (65 <=? n)%nat && (n <=? 90)%nat.

Definition lower (c : ascii) : ascii :=
  if is_upper c then ascii_of_nat (nat_of_ascii c + 32) else c.

(** [s.toLowerCase()] *)
Fixpoint toLowerCase (s : string) : string :=
  match s with
  | EmptyString => EmptyString
  | String c rest => String (lower c) (toLowerCase rest)
  end.

(** The characters [\s] matches: tab, line feed, vertical tab, form feed,
    carriage return and space. *)
Definition is_space (c : ascii) : bool :=
  let n := nat_of_ascii c in
  ((9 <=? n)%nat && (n <=? 13)%nat) || (n =? 32)%nat.

(** [s.replace(/\s+/g, r)]: every maximal run of whitespace becomes [r];
    [in_run] tells that the previous character was whitespace. *)
Fixpoint replace_runs (r : string) (in_run : bool) (s : string) : string :=
  match s with
  | EmptyString => EmptyString
  | String c rest =>
      if is_space c
      then (if in_run then replace_runs r true rest
            else r ++ replace_runs r true rest)%string
      else String c (replace_runs r false rest)
  end.

Definition replace_whitespace_runs (r s : string) : string :=
  replace_runs r false s.

(** [s.replace(c, r)] for a pattern of one character: the first occurrence
    only. *)
Fixpoint replace_first (c : ascii) (r s : string) : string :=
  match s with
  | EmptyString => EmptyString
  | String x rest =>
      if Ascii.eqb x c then (r ++ rest)%string
      else String x (replace_first c r rest)
  end.

(** [s.replaceAll(c, r)] for a pattern of one character. *)
Fixpoint replaceAll (c : ascii) (r s : string) : string :=
  match s with
  | EmptyString => EmptyString
  | String x rest =>
      if Ascii.eqb x c then (r ++ replaceAll c r rest)%string
      else String x (replaceAll c r rest)
  end.

(** How often a character occurs, and whether all characters pass a test. *)
Fixpoint occurrences (c : ascii) (s : string) : nat :=
  match s with
  | EmptyString => 0
  | String x rest =>
      if Ascii.eqb x c then S (occurrences c rest) else occurrences c rest
  end.

Fixpoint all_chars (f : ascii -> bool) (s : string) : bool :=
  match s with
  | EmptyString => true
  | String x rest => f x && all_chars f rest
  end.

(** *** Navigation of [src/app/page.tsx] *)

Definition raja_navLinks : list string :=
  ["Features"; "How It Works"; "Who It's For"; "Contact"].

(** [`#${link.toLowerCase().replace(/\s+/g, '').replace("'", '')}`], the
    [href] of a link in the desktop bar, the mobile menu and the footer. *)
Definition raja_href (link : string) : string :=
  ("#" ++ replace_first "'" "" (replace_whitespace_runs "" (toLowerCase link)))%string.

(** The [id] attributes of the page's sections and footer. *)
Definition raja_ids : list string :=
  ["howitworks"; "features"; "whoitsfor"; "faq"; "contact"].

(** *** Navigation of the sibling page *)

Definition taja_navLinks : list string :=
  ["Features"; "How It Works"; "Screens"; "Pricing"; "FAQ"; "Contact"].

(** [`#${link.toLowerCase().replaceAll(' ', '')}`], the desktop bar. *)
Definition taja_href_desktop (link : string) : string :=
  ("#" ++ replaceAll " " "" (toLowerCase link))%string.

(** [`#${link.toLowerCase().replace(' ', '-')}`], the mobile menu and the
    footer. *)
Definition taja_href_menu (link : string) : string :=
  ("#" ++ replace_first " " "-" (toLowerCase link))%string.

Definition taja_ids : list string :=
  ["features"; "howitworks"; "screens"; "pricing"; "faq"; "contact"].

(** An [href] of the form [#id] leads somewhere when [id] is on the page. *)
Definition resolves (ids : list string) (href : string) : bool :=
  existsb (fun id => String.eqb href ("#" ++ id)) ids.

(** *** [FAQItem] *)

(** [onClick={() => setIsOpen(!isOpen)}] *)
Definition FAQItem_click (isOpen : bool) : bool := negb isOpen.

(** What [FAQItem] shows: the class of the chevron and the answer, which is
    in the tree only under [{isOpen && ...}]. *)
Record FAQView : Type := {
  chevron_class : string;
  shown_answer : option string
}.

Definition FAQItem_render (answer : string) (isOpen : bool) : FAQView :=
  {| chevron_class :=
       ("w-5 h-5 text-gray-600 transition-transform duration-300 "
        ++ (if isOpen then "rotate-180" else ""))%string;
     shown_answer := if isOpen then Some answer else None |}.

(** *** The landing component

    [mobileMenuOpen] and [scrolled] are its two pieces of state; its effect
    adds the scroll listener at mount and its cleanup removes it, so the
    listener is attached exactly while [page_mounted]. *)
Record Landing : Type := {
  mobileMenuOpen : bool;
  scrolled : bool;
  page_mounted : bool
}.

Inductive page_event : Type :=
| MenuButton                 (* the "Toggle menu" button is clicked *)
| MenuLink                   (* a link of the mobile menu is clicked *)
| Scroll (scrollY : Q)       (* a scroll event; the new [window.scrollY] *)
| PageUnmount.

Definition mount_page : Landing :=
  {| mobileMenuOpen := false; scrolled := false; page_mounted := true |}.

(** [const handleScroll = () => setScrolled(window.scrollY > 10)] *)
Definition handleScroll (scrollY : Q) (st : Landing) : Landing :=
  {| mobileMenuOpen := mobileMenuOpen st;
     scrolled := match scrollY ?= 10 with Gt => true | _ => false end;
     page_mounted := page_mounted st |}.

Definition page_step (st : Landing) (e : page_event) : Landing :=
  if negb (page_mounted st) then st else
  match e with
  | MenuButton =>
      (* [onClick={() => setMobileMenuOpen(!mobileMenuOpen)}] *)
      {| mobileMenuOpen := negb (mobileMenuOpen st); scrolled := scrolled st;
         page_mounted := true |}
  | MenuLink =>
      (* the links exist under [{mobileMenuOpen && ...}] only;
         [onClick={() => setMobileMenuOpen(false)}] *)
      if mobileMenuOpen st
      then {| mobileMenuOpen := false; scrolled := scrolled st;
              page_mounted := true |}
      else st
  | Scroll y => handleScroll y st
  | PageUnmount =>
      {| mobileMenuOpen := mobileMenuOpen st; scrolled := scrolled st;
         page_mounted := false |}
  end.

Definition run_page (evs : list page_event) (st : Landing) : Landing :=
  fold_left page_step evs st.

(** The class of the [nav] element on each page. *)
Definition raja_nav_class (st : Landing) : string :=
  ("fixed top-0 w-full z-50 transition-all duration-300 "
   ++ (if scrolled st then "bg-white/90 backdrop-blur-lg shadow-md"
       else "bg-white lg:bg-transparent"))%string.

Definition taja_nav_class (st : Landing) : string :=
  ("fixed top-0 w-full z-50 transition-all duration-300 "
   ++ (if scrolled st then "bg-white/90 backdrop-blur-lg shadow-md"
       else "bg-transparent"))%string.

(** Tests on traces of page events. *)
Definition is_scroll (e : page_event) : bool :=
  match e with Scroll _ => true | _ => false end.

Definition is_unmount (e : page_event) : bool :=
  match e with PageUnmount => true | _ => false end.

Definition is_menu_link (e : page_event) : bool :=
  match e with MenuLink => true | _ => false end.

Definition is_menu_button (e : page_event) : bool :=
  match e with MenuButton => true | _ => false end.

(** *** [Button]

    [children] and [onClick] are handed on untouched and left out. *)
Inductive Variant : Type := primary | secondary | accent.

Record ButtonProps : Type := {
  variant : option Variant;
  href : option string;
  className : option string
}.

(** The element [Button] returns: its tag and the two attributes it
    computes. *)
Record ButtonView : Type := {
  tag : string;
  href_attr : option string;
  class_attr : string
}.

(** [href ? 'a' : 'button']: [undefined] and the empty string are falsy. *)
Definition truthy (s : option string) : bool :=
  match s with
  | None | Some EmptyString => false
  | Some _ => true
  end.

Definition Button (baseStyles : string) (variants : Variant -> string)
    (b : ButtonProps) : ButtonView :=
  let v := match variant b with Some v => v | None => primary end in
  let c := match className b with Some c => c | None => "" end in
  {| tag := if truthy (href b) then "a" else "button";
     href_attr := href b;
     class_attr := (baseStyles ++ " " ++ variants v ++ " " ++ c)%string |}.

Definition raja_baseStyles : string :=
  "px-6 py-3 rounded-full font-semibold text-lg transition-all duration-300 inline-flex items-center gap-2".

Definition raja_variants (v : Variant) : string :=
  match v with
  | primary => "bg-[#1f6b3a] text-white hover:bg-[#15512b] shadow-lg hover:shadow-xl"
  | secondary => "bg-white text-gray-900 border-2 border-[#1f6b3a] hover:bg-gray-50"
  | accent => "bg-[#1f6b3a] text-white hover:bg-[#15512b] shadow-lg hover:shadow-xl"
  end.

Definition taja_baseStyles : string :=
  "px-4 py-2 rounded-full font-semibold text-lg transition-all duration-300 inline-flex items-center gap-2".

Definition taja_variants (v : Variant) : string :=
  match v with
  | primary => "bg-gray-900 text-white hover:bg-gray-800 shadow-lg hover:shadow-xl"
  | secondary => "bg-white text-gray-900 border-2 border-gray-900 hover:bg-gray-50"
  | accent => "bg-emerald-600 text-white hover:bg-emerald-700 shadow-lg hover:shadow-xl"
  end.

Definition raja_Button : ButtonProps -> ButtonView :=
  Button raja_baseStyles raja_variants.

Definition taja_Button : ButtonProps -> ButtonView :=
  Button taja_baseStyles taja_variants.

(** *** More concrete instances and traces *)

(** A target that is not an integer, a target of -1 and a duration of
    [Infinity]. *)
Definition fractional : CounterProps :=
  {| end_ := Fin (199 # 2); duration := None; suffix := None |}.

Definition to_minus_one : CounterProps :=
  {| end_ := of_Z (-1); duration := None; suffix := None |}.

Definition endless : CounterProps :=
  {| end_ := of_Z 100; duration := Some PInf; suffix := None |}.

(** A visit of the page: the menu is opened, the page scrolled to 10 and
    to 300, a link of the menu clicked, the button pressed three times. *)
Definition visit_start : list page_event :=
  [MenuButton; Scroll 10; Scroll 300].

Definition visit_end : list page_event :=
  [MenuButton; MenuButton; MenuButton].

(** No teardown in a trace of the counter. *)
Definition no_unmount (evs : list event) : bool :=
  forallb (fun e => match e with Unmount => false | _ => true end) evs.

(** A run that is seen, ticks twice and is left alone. *)
Definition seen_and_idle : list event :=
  [Frame 5; Frame 1005; Intersect false; Intersect true].

(** * Properties *)

(** ** What [animate] and the primitives do to each field *)

Lemma animate_startTime p ts st :
  startTime (animate p ts st) = Some (latch (startTime st) ts).
Proof. unfold animate. destruct (lt _ _); reflexivity. Qed.

Lemma animate_count p ts st :
  count (animate p ts st) =
  floor (mul (progress_at p (latch (startTime st) ts) ts) (end_ p)).
Proof. unfold animate. destruct (lt _ _); reflexivity. Qed.

Lemma animate_writes p ts st :
  writes (animate p ts st) = count (animate p ts st) :: writes st.
Proof. unfold animate. destruct (lt _ _); reflexivity. Qed.

Lemma animate_raf_queue p ts st :
  raf_queue (animate p ts st) =
  if lt (progress_at p (latch (startTime st) ts) ts) (Fin 1)
  then raf_queue st ++ [raf_next st] else raf_queue st.
Proof. unfold animate. destruct (lt _ _); reflexivity. Qed.

Lemma animate_animationFrame p ts st :
  animationFrame (animate p ts st) =
  if lt (progress_at p (latch (startTime st) ts) ts) (Fin 1)
  then Some (raf_next st) else animationFrame st.
Proof. unfold animate. destruct (lt _ _); reflexivity. Qed.

Lemma animate_frame p ts st :
  isInView (animate p ts st) = isInView st /\
  mounted (animate p ts st) = mounted st /\
  cleanup (animate p ts st) = cleanup st /\
  starts (animate p ts st) = starts st.
Proof. unfold animate. destruct (lt _ _); repeat split. Qed.

Lemma on_frame_idle p ts st :
  raf_queue st = [] -> on_frame p ts st = st.
Proof.
  intros H. unfold on_frame. rewrite H. destruct st; simpl in *.
  subst. reflexivity.
Qed.

Lemma on_frame_single p ts st h :
  raf_queue st = [h] ->
  on_frame p ts st = animate p ts (set_raf [] (raf_next st) st).
Proof. intros H. unfold on_frame. rewrite H. reflexivity. Qed.

Lemma cancel_single h st :
  raf_queue st = [h] ->
  raf_queue (cancelAnimationFrame (Some h) st) = [].
Proof.
  intros H. simpl. rewrite H. simpl. now rewrite Nat.eqb_refl.
Qed.

Lemma cancel_idle h st :
  raf_queue st = [] -> cancelAnimationFrame h st = st.
Proof.
  intros H. destruct h as [n|]; [|reflexivity].
  unfold cancelAnimationFrame. rewrite H. destruct st; simpl in *.
  subst. reflexivity.
Qed.

(** ** Reachable states keep their shape *)

Lemma Inv_mount : Inv mount.
Proof. split; simpl; auto; discriminate. Qed.

Lemma Inv_on_intersect v st : Inv st -> Inv (on_intersect v st).
Proof.
  intros I. unfold on_intersect.
  destruct (mounted st) eqn:M, v, (isInView st) eqn:V; simpl; auto.
  destruct (inv_idle _ I V) as (W & C & S & HQ & K).
  unfold run_cleanup. simpl. rewrite K.
  split; simpl; try discriminate.
  - now rewrite S.
  - right. exists (raf_next st). rewrite HQ. auto.
Qed.

Lemma Inv_on_frame p ts st : Inv st -> Inv (on_frame p ts st).
Proof.
  intros I. destruct (inv_queue _ I) as [HQ | (h & HQ & A & K & M & V)].
  - now rewrite on_frame_idle.
  - rewrite (on_frame_single _ _ _ _ HQ).
    set (st0 := set_raf [] (raf_next st) st).
    destruct (animate_frame p ts st0) as (EV & EM & EK & ES).
    split.
    + rewrite EV. simpl. congruence.
    + rewrite EV, ES. simpl. apply (inv_started _ I).
    + rewrite animate_raf_queue, animate_animationFrame, EV, EM, EK.
      destruct (lt _ _); simpl; auto.
      right. exists (raf_next st). auto.
Qed.

Lemma Inv_on_unmount st : Inv st -> Inv (on_unmount st).
Proof.
  intros I. unfold on_unmount. destruct (mounted st) eqn:M; auto.
  unfold run_cleanup.
  destruct (inv_queue _ I) as [HQ | (h & HQ & A & K & _ & V)].
  - destruct (cleanup st) eqn:K.
    + rewrite (cancel_idle _ _ HQ).
      split; simpl; auto. apply I. apply I.
    + split; simpl; auto. apply I. apply I.
  - rewrite K, A. split; simpl.
    + congruence.
    + apply I.
    + left. rewrite HQ. simpl. now rewrite Nat.eqb_refl.
Qed.

Lemma Inv_step p st e : Inv st -> Inv (step p st e).
Proof.
  destruct e; simpl.
  - apply Inv_on_intersect.
  - apply Inv_on_frame.
  - apply Inv_on_unmount.
Qed.

Lemma Inv_run p evs : forall st, Inv st -> Inv (run p evs st).
Proof.
  induction evs as [|e evs IH]; intros st I; simpl; auto.
  apply IH, Inv_step, I.
Qed.

Lemma run_app p evs1 evs2 st :
  run p (evs1 ++ evs2) st = run p evs2 (run p evs1 st).
Proof. apply fold_left_app. Qed.

(** ** The visibility trigger fires once *)

Lemma on_frame_frame p ts st :
  Inv st ->
  isInView (on_frame p ts st) = isInView st /\
  mounted (on_frame p ts st) = mounted st /\
  starts (on_frame p ts st) = starts st.
Proof.
  intros I. destruct (inv_queue _ I) as [HQ | (h & HQ & _)].
  - now rewrite on_frame_idle.
  - rewrite (on_frame_single _ _ _ _ HQ).
    destruct (animate_frame p ts (set_raf [] (raf_next st) st))
      as (-> & -> & _ & ->). auto.
Qed.

Lemma run_cleanup_isInView st : isInView (run_cleanup st) = isInView st.
Proof.
  unfold run_cleanup. destruct (cleanup st); [|reflexivity].
  destruct (animationFrame st); reflexivity.
Qed.

Lemma effect_isInView st : isInView (effect st) = isInView st.
Proof. unfold effect. destruct (isInView st) eqn:V; simpl; auto. Qed.

Lemma isInView_run p evs : forall st,
  Inv st ->
  isInView (run p evs st) = isInView st || (mounted st && became_visible evs).
Proof.
  induction evs as [|e evs IH]; intros st I; simpl.
  - now rewrite andb_false_r, orb_false_r.
  - rewrite IH by now apply Inv_step.
    destruct e as [v | ts |]; simpl.
    + unfold on_intersect.
      destruct (mounted st) eqn:M, v, (isInView st) eqn:V; simpl;
        rewrite ?effect_isInView, ?run_cleanup_isInView, ?M, ?V; simpl; auto;
        now rewrite ?andb_false_r, ?orb_false_r.
    + destruct (on_frame_frame p ts st I) as (-> & -> & _). reflexivity.
    + unfold on_unmount. destruct (mounted st) eqn:M; simpl.
      * unfold run_cleanup. destruct (cleanup st), (animationFrame st);
          simpl; now rewrite orb_false_r.
      * now rewrite M.
Qed.

Lemma on_intersect_started v st :
  isInView st = true -> on_intersect v st = st.
Proof.
  intros V. unfold on_intersect. rewrite V.
  now rewrite andb_false_r.
Qed.


(** ** Unmounting cancels the pending tick *)

Lemma unmounted_absorbing p evs : forall st,
  mounted st = false -> raf_queue st = [] -> run p evs st = st.
Proof.
  induction evs as [|e evs IH]; intros st M HQ; simpl; auto.
  assert (E : step p st e = st).
  { destruct e; simpl.
    - unfold on_intersect. now rewrite M.
    - now apply on_frame_idle.
    - unfold on_unmount. now rewrite M. }
  rewrite E. now apply IH.
Qed.

Lemma on_unmount_quiet st :
  Inv st ->
  mounted (on_unmount st) = false /\ raf_queue (on_unmount st) = [] /\
  writes (on_unmount st) = writes st /\ count (on_unmount st) = count st.
Proof.
  intros I. unfold on_unmount. destruct (mounted st) eqn:M.
  - unfold run_cleanup.
    destruct (inv_queue _ I) as [HQ | (h & HQ & A & K & _)].
    + destruct (cleanup st); [rewrite (cancel_idle _ _ HQ)|]; simpl; auto.
    + rewrite K, A. simpl. rewrite HQ. simpl. rewrite Nat.eqb_refl. auto.
  - destruct (inv_queue _ I) as [HQ | (h & _ & _ & _ & M' & _)]; auto.
    congruence.
Qed.

(** C5.  Whatever the instance has done so far, unmounting it leaves no
    frame request queued, and whatever happens afterwards (frames,
    visibility reports, a second teardown) neither calls [setCount] nor
    changes the count.  Teardown is a total function of the state: there
    is no failing case. *)
Theorem unmount_cancels_pending_tick p evs later :
  let st := step p (run p evs mount) Unmount in
  raf_queue st = [] /\
  writes (run p later st) = writes st /\
  count (run p later st) = count st.
Proof.
  intros st.
  destruct (on_unmount_quiet (run p evs mount)) as (M & HQ & _).
  { apply Inv_run, Inv_mount. }
  unfold st. simpl. split; [exact HQ|].
  now rewrite unmounted_absorbing.
Qed.

(** A teardown in the middle of a run: the request of the second tick was
    queued, and the frame that would have served it writes nothing. *)
Example unmount_mid_run :
  let p := {| end_ := of_Z 100; duration := None; suffix := None |} in
  let running := run p [Intersect true; Frame 10; Frame 510] mount in
  raf_queue running = [3%nat] /\
  writes (run p [Unmount; Frame 1010; Frame 3000] running) = writes running.
Proof. split; reflexivity. Qed.

(** ** Arithmetic of the clamp *)

Lemma clamp1_le x : clamp1 x <= 1.
Proof.
  unfold clamp1. destruct (x ?= 1) eqn:E.
  - apply Qeq_alt in E. rewrite E. apply Qle_refl.
  - apply Qlt_alt in E. now apply Qlt_le_weak.
  - apply Qle_refl.
Qed.

Lemma clamp1_below x : x <= 1 -> clamp1 x = x.
Proof.
  intros H. unfold clamp1. destruct (x ?= 1) eqn:E; auto.
  apply Qgt_alt in E. exfalso. apply (Qlt_irrefl 1).
  now apply Qlt_le_trans with x.
Qed.

Lemma clamp1_above x : 1 <= x -> clamp1 x == 1.
Proof.
  intros H. unfold clamp1. destruct (x ?= 1) eqn:E.
  - now apply Qeq_alt.
  - apply Qlt_alt in E. exfalso. apply (Qlt_irrefl 1).
    now apply Qle_lt_trans with x.
  - reflexivity.
Qed.

Lemma clamp1_nonneg x : 0 <= x -> 0 <= clamp1 x.
Proof. intros H. unfold clamp1. destruct (x ?= 1); auto. discriminate. Qed.

Lemma clamp1_mono x y : x <= y -> clamp1 x <= clamp1 y.
Proof.
  intros H. destruct (Qlt_le_dec 1 y) as [Hy | Hy].
  - rewrite (clamp1_above y) by now apply Qlt_le_weak. apply clamp1_le.
  - rewrite (clamp1_below y) by assumption.
    rewrite (clamp1_below x) by now apply Qle_trans with y.
    assumption.
Qed.

Lemma clamp1_clamp01 x : 0 <= x -> clamp1 x == clamp01 x.
Proof.
  intros H. unfold clamp01. destruct (Qlt_le_dec 1 x) as [Hx | Hx].
  - rewrite clamp1_above by now apply Qlt_le_weak.
    rewrite (Q.min_r x 1) by now apply Qlt_le_weak.
    rewrite Q.max_r; [reflexivity | discriminate].
  - rewrite clamp1_below by assumption.
    rewrite (Q.min_l x 1) by assumption.
    now rewrite Q.max_r.
Qed.

Lemma lt_clamp1 x :
  lt (Fin (clamp1 x)) (Fin 1) = match x ?= 1 with Lt => true | _ => false end.
Proof.
  unfold clamp1. destruct (x ?= 1) eqn:E; simpl; now rewrite ?E.
Qed.

Lemma displayed_full target : displayed (inject_Z target) 1 = target.
Proof.
  unfold displayed. rewrite <- (Qfloor_Z target) at 2.
  apply Qfloor_comp. ring.
Qed.

Lemma displayed_comp target x y :
  x == y -> displayed target x = displayed target y.
Proof. intros H. unfold displayed. apply Qfloor_comp. now rewrite H. Qed.

(** ** Sorted lists read backwards *)

Lemma StronglySorted_snoc {A} (R : A -> A -> Prop) l a :
  StronglySorted R l -> Forall (fun x => R x a) l ->
  StronglySorted R (l ++ [a]).
Proof.
  induction l as [|b l IH]; intros Hs Ha; simpl.
  - repeat constructor.
  - apply StronglySorted_inv in Hs. destruct Hs as (Hs & Hb).
    inversion Ha as [|? ? Hba Ha']; subst.
    constructor; [now apply IH|].
    apply Forall_app. split; [exact Hb | now constructor].
Qed.

Lemma StronglySorted_rev {A} (R : A -> A -> Prop) l :
  StronglySorted (fun newer older => R older newer) l ->
  StronglySorted R (rev l).
Proof.
  induction l as [|a l IH]; intros Hs; simpl; [constructor|].
  apply StronglySorted_inv in Hs. destruct Hs as (Hs & Ha).
  apply StronglySorted_snoc; [now apply IH|].
  apply Forall_rev. exact Ha.
Qed.

Lemma last_rev_hd {A} (l : list A) (x : A) : last (rev l) x = hd x l.
Proof.
  destruct l as [|a l]; simpl; [reflexivity|]. apply last_last.
Qed.

(** ** The displayed value as a function of progress *)

Lemma displayed_zero target : displayed target 0 = 0%Z.
Proof.
  unfold displayed. transitivity (Qfloor (inject_Z 0)).
  - apply Qfloor_comp. unfold inject_Z. ring.
  - apply Qfloor_Z.
Qed.

Lemma displayed_mono target a b :
  0 <= target -> a <= b -> (displayed target a <= displayed target b)%Z.
Proof.
  intros Ht Hab. unfold displayed. apply Qfloor_resp_le.
  now apply Qmult_le_compat_r.
Qed.

Lemma displayed_anti target a b :
  target <= 0 -> a <= b -> (displayed target b <= displayed target a)%Z.
Proof.
  intros Ht Hab. unfold displayed. apply Qfloor_resp_le.
  setoid_replace (b * target) with (- (b * - target)) by ring.
  setoid_replace (a * target) with (- (a * - target)) by ring.
  apply Qopp_le_compat, Qmult_le_compat_r; [exact Hab | lra].
Qed.

Lemma inject_Z_nonneg z : (0 <= z)%Z -> 0 <= inject_Z z.
Proof. intros H. change (inject_Z 0 <= inject_Z z). now rewrite <- Zle_Qle. Qed.

Lemma inject_Z_nonpos z : (z <= 0)%Z -> inject_Z z <= 0.
Proof. intros H. change (inject_Z z <= inject_Z 0). now rewrite <- Zle_Qle. Qed.

Lemma displayed_range_nonneg target a :
  (0 <= target)%Z -> 0 <= a <= 1 ->
  (0 <= displayed (inject_Z target) a <= target)%Z.
Proof.
  intros Ht (H0 & H1).
  pose proof (inject_Z_nonneg _ Ht) as HT.
  split.
  - rewrite <- (displayed_zero (inject_Z target)). now apply displayed_mono.
  - rewrite <- (displayed_full target) at 2. now apply displayed_mono.
Qed.

Lemma displayed_range_neg target a :
  (target <= 0)%Z -> 0 <= a <= 1 ->
  (target <= displayed (inject_Z target) a <= 0)%Z.
Proof.
  intros Ht (H0 & H1).
  pose proof (inject_Z_nonpos _ Ht) as HT.
  split.
  - rewrite <- (displayed_full target) at 1. now apply displayed_anti.
  - rewrite <- (displayed_zero (inject_Z target)). now apply displayed_anti.
Qed.

(** ** Runs with a positive duration *)

Section PositiveDuration.

Variables (p : CounterProps) (d : Q).
Hypothesis duration_is : duration_of p = Fin d.
Hypothesis duration_pos : 0 < d.

Local Abbreviation D := (d * 1000).

Lemma D_pos : 0 < D.
Proof. lra. Qed.

Lemma durationMs_fin : durationMs p = Fin D.
Proof. unfold durationMs. now rewrite duration_is. Qed.

Lemma progress_at_fin s ts :
  progress_at p s ts = Fin (clamp1 ((ts - s) / D)).
Proof.
  unfold progress_at. rewrite durationMs_fin. simpl.
  destruct (D ?= 0) eqn:E.
  - apply Qeq_alt in E. pose proof D_pos as H. rewrite E in H.
    now apply Qlt_irrefl in H.
  - unfold clamp1. simpl. now destruct (_ ?= 1).
  - unfold clamp1. simpl. now destruct (_ ?= 1).
Qed.

Lemma quotient_nonneg s ts : s <= ts -> 0 <= (ts - s) / D.
Proof.
  intros H. apply Qle_shift_div_l; [apply D_pos | lra].
Qed.

Lemma quotient_mono s t1 t2 : t1 <= t2 -> (t1 - s) / D <= (t2 - s) / D.
Proof.
  intros H. unfold Qdiv. apply Qmult_le_compat_r; [lra|].
  apply Qinv_le_0_compat, Qlt_le_weak, D_pos.
Qed.

Lemma quotient_zero s ts : ts == s -> (ts - s) / D == 0.
Proof.
  intros H. unfold Qdiv. setoid_replace (ts - s) with 0 by lra.
  apply Qmult_0_l.
Qed.

Lemma quotient_over s ts : D <= ts - s -> 1 <= (ts - s) / D.
Proof.
  intros H. apply Qle_shift_div_l; [apply D_pos | lra].
Qed.

Lemma quotient_under s ts : ts - s < D -> (ts - s) / D < 1.
Proof.
  intros H. apply Qlt_shift_div_r; [apply D_pos | lra].
Qed.

(** The value one tick writes, for a finite [end]. *)
Lemma tick_count e ts st :
  end_ p = Fin e ->
  count (animate p ts st) =
  of_Z (displayed e (clamp1 ((ts - latch (startTime st) ts) / D))).
Proof.
  intros He. rewrite animate_count, progress_at_fin, He. reflexivity.
Qed.

(** The tick asks for another frame exactly when the quotient is below 1. *)
Lemma tick_raf_queue ts st :
  raf_queue (animate p ts st) =
  match (ts - latch (startTime st) ts) / D ?= 1 with
  | Lt => raf_queue st ++ [raf_next st]
  | _ => raf_queue st
  end.
Proof.
  rewrite animate_raf_queue, progress_at_fin, lt_clamp1.
  now destruct (_ ?= 1).
Qed.


(** Once a run is over (the element was seen, nothing is queued), no
    event writes again. *)
Lemma settled_absorbing evs : forall st,
  isInView st = true -> raf_queue st = [] ->
  count (run p evs st) = count st /\
  writes (run p evs st) = writes st /\
  raf_queue (run p evs st) = [].
Proof.
  induction evs as [|e evs IH]; intros st V HQ; simpl; auto.
  destruct e as [v | ts |]; simpl.
  - rewrite on_intersect_started by assumption. now apply IH.
  - rewrite on_frame_idle by assumption. now apply IH.
  - unfold on_unmount. destruct (mounted st); [|now apply IH].
    unfold run_cleanup.
    replace (if cleanup st then cancelAnimationFrame (animationFrame st) st
             else st) with st
      by (destruct (cleanup st); now rewrite ?cancel_idle).
    now apply (IH (set_mounted false st)).
Qed.

(** The terminal tick, for a target of either sign. *)
Lemma terminal_tick target st ts later :
  end_ p = of_Z target ->
  Inv st ->
  raf_queue st <> [] ->
  D <= ts - latch (startTime st) ts ->
  let st' := step p st (Frame ts) in
  count st' = of_Z target /\ raf_queue st' = [] /\
  count (run p later st') = of_Z target /\
  writes (run p later st') = writes st' /\
  raf_queue (run p later st') = [].
Proof.
  intros He I HQ Hover st'.
  destruct (inv_queue _ I) as [Q0 | (h & Qh & _ & _ & _ & V)];
    [contradiction|].
  pose proof (quotient_over _ _ Hover) as H1.
  assert (C : count st' = of_Z target).
  { unfold st'. simpl. rewrite (on_frame_single _ _ _ _ Qh).
    rewrite (tick_count _ _ _ He). simpl. f_equal.
    rewrite (displayed_comp _ _ 1) by now apply clamp1_above.
    apply displayed_full. }
  assert (E : raf_queue st' = []).
  { unfold st'. simpl. rewrite (on_frame_single _ _ _ _ Qh).
    rewrite tick_raf_queue. simpl.
    destruct (_ ?= 1) eqn:E; auto.
    apply Qlt_alt in E. exfalso. apply (Qlt_irrefl 1).
    eapply Qle_lt_trans; eassumption. }
  assert (V' : isInView st' = true).
  { unfold st'. simpl.
    destruct (on_frame_frame p ts st I) as (-> & _). exact V. }
  destruct (settled_absorbing later st' V' E) as (-> & -> & ->).
  auto.
Qed.

(** C1.  For a non-negative integer target and a positive duration: when
    a pending tick of a run runs at a time at which the elapsed time has
    reached the duration, it sets the count to the target exactly and
    requests no further frame; no later event changes the count or
    writes again. *)
Theorem exact_settlement target evs ts later :
  end_ p = of_Z target ->
  (0 <= target)%Z ->
  let st := run p evs mount in
  raf_queue st <> [] ->
  D <= ts - latch (startTime st) ts ->
  let st' := step p st (Frame ts) in
  count st' = of_Z target /\ raf_queue st' = [] /\
  count (run p later st') = of_Z target /\
  writes (run p later st') = writes st' /\
  raf_queue (run p later st') = [].
Proof.
  intros He _ st HQ Hover.
  apply terminal_tick; auto. apply Inv_run, Inv_mount.
Qed.

(** *** The history of a run with an integer target *)

Section IntegerTarget.

Variable target : Z.
Hypothesis end_is : end_ p = of_Z target.

Lemma Trail_mount lo : Trail D target lo mount.
Proof.
  exists []. simpl. repeat split; constructor.
Qed.

Lemma Trail_ext lo st st' :
  writes st' = writes st -> count st' = count st ->
  startTime st' = startTime st ->
  Trail D target lo st -> Trail D target lo st'.
Proof.
  intros W C S (ps & H). exists ps. now rewrite W, C, S.
Qed.

Lemma Trail_weaken lo lo' st :
  lo <= lo' -> Trail D target lo st -> Trail D target lo' st.
Proof.
  intros Hlo (ps & W & C & R & So & B). exists ps.
  repeat split; auto.
  destruct (startTime st) as [s|]; auto.
  destruct (Qeq_bool s 0); auto.
  destruct B as (Hs & B). split; [now apply Qle_trans with lo|].
  eapply Forall_impl; [|exact B]. intros a Ha. simpl in Ha.
  eapply Qle_trans; [exact Ha|].
  now apply clamp1_mono, quotient_mono.
Qed.

Lemma Trail_animate lo ts st :
  lo <= ts -> Trail D target lo st -> Trail D target ts (animate p ts st).
Proof.
  intros Hlo (ps & W & C & R & So & B).
  set (s' := latch (startTime st) ts).
  set (pr := clamp1 ((ts - s') / D)).
  assert (Hs' : s' <= ts).
  { unfold s', latch. destruct (startTime st) as [s|]; [|apply Qle_refl].
    destruct (Qeq_bool s 0); [apply Qle_refl|].
    destruct B as (Hs & _). now apply Qle_trans with lo. }
  assert (Hpr : 0 <= pr <= 1).
  { split; [apply clamp1_nonneg, quotient_nonneg, Hs' | apply clamp1_le]. }
  assert (Hall : Forall (fun a => a <= pr) ps).
  { unfold pr, s', latch. destruct (startTime st) as [s|].
    - destruct (Qeq_bool s 0).
      + eapply Forall_impl; [|exact B]. intros a Ha. simpl in Ha.
        rewrite Ha. apply clamp1_nonneg, quotient_nonneg, Qle_refl.
      + destruct B as (Hs & B).
        eapply Forall_impl; [|exact B]. intros a Ha. simpl in Ha.
        eapply Qle_trans; [exact Ha|].
        now apply clamp1_mono, quotient_mono.
    - eapply Forall_impl; [|exact B]. intros a Ha. simpl in Ha.
      rewrite Ha. apply clamp1_nonneg, quotient_nonneg, Qle_refl. }
  assert (Hc : count (animate p ts st) =
               of_Z (displayed (inject_Z target) pr)).
  { now rewrite (tick_count (inject_Z target)). }
  exists (pr :: ps). repeat split.
  - rewrite animate_writes, Hc, W. reflexivity.
  - exact Hc.
  - constructor; auto.
  - constructor; auto.
  - rewrite animate_startTime. fold s'.
    destruct (Qeq_bool s' 0) eqn:Z0.
    + assert (U : unset (startTime st) = true).
      { unfold s', latch in Z0. destruct (startTime st) as [s|]; auto.
        simpl. destruct (Qeq_bool s 0) eqn:E; auto.
        change (Qeq_bool s 0 = true) in Z0. congruence. }
      constructor.
      * unfold pr. rewrite clamp1_below.
        -- apply quotient_zero. unfold s', latch.
           destruct (startTime st) as [s|]; [|reflexivity].
           simpl in U. rewrite U. reflexivity.
        -- rewrite quotient_zero; [discriminate|].
           unfold s', latch.
           destruct (startTime st) as [s|]; [|reflexivity].
           simpl in U. rewrite U. reflexivity.
      * destruct (startTime st) as [s|]; auto.
        simpl in U. now rewrite U in B.
    + split; [exact Hs'|]. constructor; auto. apply Qle_refl.
Qed.

Lemma Trail_on_intersect lo v st :
  Inv st -> Trail D target lo st -> Trail D target lo (on_intersect v st).
Proof.
  intros I T. unfold on_intersect.
  destruct (mounted st && v && negb (isInView st)) eqn:G; auto.
  apply andb_prop in G. destruct G as (_ & V).
  apply negb_true_iff in V.
  destruct (inv_idle _ I V) as (W & C & _ & _ & K).
  unfold run_cleanup. simpl. rewrite K. simpl.
  exists []. simpl. rewrite W, C.
  repeat split; constructor.
Qed.

Lemma Trail_on_frame lo ts st :
  Inv st -> lo <= ts ->
  Trail D target lo st -> Trail D target ts (on_frame p ts st).
Proof.
  intros I Hts T.
  destruct (inv_queue _ I) as [HQ | (h & HQ & _)].
  - rewrite on_frame_idle by assumption.
    now apply Trail_weaken with lo.
  - rewrite (on_frame_single _ _ _ _ HQ).
    now apply Trail_animate with lo.
Qed.

Lemma Trail_on_unmount lo st :
  Trail D target lo st -> Trail D target lo (on_unmount st).
Proof.
  intros T. unfold on_unmount. destruct (mounted st); auto.
  eapply Trail_ext; [| | |exact T]; unfold run_cleanup;
    destruct (cleanup st), (animationFrame st); reflexivity.
Qed.

Lemma Trail_run evs : forall lo st,
  Inv st ->
  Forall (Qle lo) (frame_times evs) ->
  StronglySorted Qle (frame_times evs) ->
  Trail D target lo st ->
  exists lo', Trail D target lo' (run p evs st).
Proof.
  induction evs as [|e evs IH]; intros lo st I Hlo Hs T; simpl.
  - now exists lo.
  - destruct e as [v | ts |]; simpl in *.
    + apply (IH lo); auto using Inv_on_intersect, Trail_on_intersect.
    + inversion Hlo as [|? ? Hts _]; subst.
      apply StronglySorted_inv in Hs. destruct Hs as (Hs & Hall).
      apply (IH ts); auto using Inv_on_frame.
      now apply Trail_on_frame with lo.
    + apply (IH lo); auto using Inv_on_unmount, Trail_on_unmount.
Qed.

(** Every trace with non-decreasing frame timestamps has such a
    history. *)
Lemma Trail_reachable evs :
  StronglySorted Qle (frame_times evs) ->
  exists lo, Trail D target lo (run p evs mount).
Proof.
  intros Hs. apply (Trail_run evs (hd 0 (frame_times evs))); auto.
  - apply Inv_mount.
  - destruct (frame_times evs) as [|t ts]; [constructor|].
    apply StronglySorted_inv in Hs. destruct Hs as (_ & Hall).
    constructor; [apply Qle_refl | exact Hall].
  - apply Trail_mount.
Qed.

(** The history read in time order, for a range [P] of the displayed
    values and an order [R] that progress respects. *)
Lemma Trail_history (P : Z -> Prop) (R : Z -> Z -> Prop) lo st :
  (forall a, 0 <= a <= 1 -> P (displayed (inject_Z target) a)) ->
  (forall a b, a <= b ->
     R (displayed (inject_Z target) a) (displayed (inject_Z target) b)) ->
  Trail D target lo st ->
  exists zs : list Z,
    rev (writes st) = map of_Z zs /\
    count st = of_Z (last zs 0%Z) /\
    Forall P zs /\
    StronglySorted R zs.
Proof.
  intros HP HR (ps & W & C & Hr & Hs & _).
  exists (rev (map (displayed (inject_Z target)) ps)).
  repeat split.
  - rewrite W, <- map_rev, <- map_rev, map_map. reflexivity.
  - rewrite C, last_rev_hd. destruct ps as [|a ps]; simpl; auto.
  - apply Forall_rev, Forall_map.
    eapply Forall_impl; [|exact Hr]. intros a Ha. now apply HP.
  - apply StronglySorted_rev.
    clear W C Hr. induction Hs as [|a l Hs IH Ha]; simpl; constructor; auto.
    apply Forall_map. eapply Forall_impl; [|exact Ha].
    intros b Hb. now apply HR.
Qed.

(** C3.  For a non-negative integer target and a positive duration, on
    every trace whose frame timestamps do not decrease: the values
    written by the ticks, read in time order, are integers of
    [[0, target]] and never decrease, and the displayed count is the
    last of them (0 before the first tick).  For target 0 every one of
    them, and the count, is 0. *)
Theorem range_and_monotonicity evs :
  (0 <= target)%Z ->
  StronglySorted Qle (frame_times evs) ->
  let st := run p evs mount in
  exists zs : list Z,
    rev (writes st) = map of_Z zs /\
    count st = of_Z (last zs 0%Z) /\
    Forall (fun z => (0 <= z <= target)%Z) zs /\
    StronglySorted Z.le zs /\
    (target = 0%Z -> Forall (eq 0%Z) zs /\ count st = of_Z 0).
Proof.
  intros Ht Hs st.
  destruct (Trail_reachable evs Hs) as (lo & T).
  assert (H : exists zs : list Z,
             rev (writes st) = map of_Z zs /\
             count st = of_Z (last zs 0%Z) /\
             Forall (fun z => (0 <= z <= target)%Z) zs /\
             StronglySorted Z.le zs).
  { apply (Trail_history _ _ lo st); auto.
    - intros a Ha. now apply displayed_range_nonneg.
    - intros a b Hab. apply displayed_mono; [|exact Hab].
      now apply inject_Z_nonneg. }
  destruct H as (zs & W & C & Hr & Hm).
  exists zs. repeat split; auto.
  - eapply Forall_impl; [|exact Hr]. intros z Hz. simpl in Hz. lia.
  - rewrite C. f_equal. subst target.
    clear - Hr. induction Hr as [|z l Hz Hr IH]; simpl; auto.
    destruct l; [lia | exact IH].
Qed.

(** C10.  For a negative integer target and a positive duration, on
    every trace whose frame timestamps do not decrease: the values
    written by the ticks, read in time order, are integers of
    [[target, 0]] and never increase, the displayed count is the last
    of them, and the terminal tick sets the count to the target
    exactly, for good. *)
Theorem negative_target_run evs :
  (target < 0)%Z ->
  StronglySorted Qle (frame_times evs) ->
  let st := run p evs mount in
  (exists zs : list Z,
     rev (writes st) = map of_Z zs /\
     count st = of_Z (last zs 0%Z) /\
     Forall (fun z => (target <= z <= 0)%Z) zs /\
     StronglySorted Z.ge zs) /\
  (forall ts later,
     raf_queue st <> [] ->
     D <= ts - latch (startTime st) ts ->
     let st' := step p st (Frame ts) in
     count st' = of_Z target /\ raf_queue st' = [] /\
     count (run p later st') = of_Z target).
Proof.
  intros Ht Hs st. split.
  - destruct (Trail_reachable evs Hs) as (lo & T).
    assert (Ht' : (target <= 0)%Z) by lia.
    apply (Trail_history (fun z => (target <= z <= 0)%Z) Z.ge lo st); auto.
    + intros a Ha. now apply displayed_range_neg.
    + intros a b Hab. apply Z.le_ge, displayed_anti; [|exact Hab].
      now apply inject_Z_nonpos.
  - intros ts later HQ Hover st'.
    destruct (terminal_tick target st ts later end_is) as (A & B & C & _);
      auto.
    apply Inv_run, Inv_mount.
Qed.

End IntegerTarget.

End PositiveDuration.

(** ** The start timestamp *)

Lemma Qeq_bool_false x y : ~ x == y -> Qeq_bool x y = false.
Proof.
  intros H. destruct (Qeq_bool x y) eqn:E; auto.
  now apply Qeq_bool_eq in E.
Qed.

(** A start that is not zero stays latched. *)
Lemma latch_kept s ts : ~ s == 0 -> latch (Some s) ts = s.
Proof. intros H. simpl. now rewrite Qeq_bool_false. Qed.

(** A start of zero is taken for unset and replaced. *)
Lemma latch_zero s ts : s == 0 -> latch (Some s) ts = ts.
Proof. intros H. simpl. apply Qeq_eq_bool in H. now rewrite H. Qed.

(** C9, at a first tick with timestamp 0.  The first tick stores 0 as the
    start; the second tick, at 1000 ms, tests [!startTime], finds it true
    and stores its own timestamp: the start is now 1000, the elapsed time 0
    and the count 0, where half of the two seconds have passed and the
    latched start would give 50. *)
Theorem start_latch_first_timestamp_zero :
  let p := {| end_ := of_Z 100; duration := None; suffix := None |} in
  let first := run p [Intersect true; Frame 0] mount in
  let second := step p first (Frame 1000) in
  startTime first = Some 0 /\
  startTime second = Some 1000 /\
  count second = of_Z 0 /\
  displayed 100 (clamp01 ((1000 - 0) / (2 * 1000))) = 50%Z.
Proof. repeat split. Qed.

(** ** The worked scenario *)

(** The [duration] prop counts seconds: its default is the 2000 ms of the
    specification, and a prop of 2000 would be 2000 seconds. *)
Example duration_prop_counts_seconds :
  durationMs hero = Fin 2000 /\
  durationMs {| end_ := of_Z 12847; duration := Some (Fin 2000); suffix := None |}
  = Fin 2000000.
Proof. split; reflexivity. Qed.

(** C6.  With target 12847 and the duration prop left at its default 2 (or
    passed as 2), the divisor [duration * 1000] is 2000 ms.  In a run whose
    start is latched at [t0], the tick at [t0 + 1000] shows 6423, and a
    tick at [t0 + e] with [e >= 2000] shows 12847, as does every later
    state. *)
Theorem worked_scenario dur sfx evs t0 :
  dur = None \/ dur = Some (Fin 2) ->
  let p := {| end_ := of_Z 12847; duration := dur; suffix := sfx |} in
  let st := run p evs mount in
  startTime st = Some t0 ->
  ~ t0 == 0 ->
  raf_queue st <> [] ->
  durationMs p = Fin 2000 /\
  count (step p st (Frame (t0 + 1000))) = of_Z 6423 /\
  (forall e later,
     2000 <= e ->
     count (run p (Frame (t0 + e) :: later) st) = of_Z 12847).
Proof.
  intros Hdur p st Hs Ht0 HQ.
  assert (Hd : duration_of p = Fin 2) by (destruct Hdur; subst; reflexivity).
  assert (I : Inv st) by apply Inv_run, Inv_mount.
  split; [destruct Hdur; subst; reflexivity|]. split.
  - destruct (inv_queue _ I) as [HQ0 | (h & Hh & _)]; [contradiction|].
    simpl. rewrite (on_frame_single _ _ _ _ Hh).
    rewrite (tick_count p 2 Hd eq_refl 12847); [|reflexivity].
    simpl startTime. rewrite Hs, latch_kept by assumption.
    f_equal. rewrite (displayed_comp _ _ (1 # 2)); [reflexivity|].
    rewrite clamp1_below.
    + unfold Qdiv. setoid_replace (t0 + 1000 - t0) with 1000 by ring.
      reflexivity.
    + apply Qlt_le_weak, (quotient_under 2); [reflexivity|]. lra.
  - intros e later He.
    change (run p (Frame (t0 + e) :: later) st)
      with (run p later (step p st (Frame (t0 + e)))).
    apply (terminal_tick p 2 Hd eq_refl 12847 st (t0 + e) later);
      auto.
    rewrite Hs, latch_kept by assumption. lra.
Qed.

(** ** A duration that is not positive *)

Lemma progress_at_unfold p d s ts :
  duration_of p = Fin d ->
  progress_at p s ts =
  JS.min (match d * 1000 ?= 0 with
          | Eq => signed_inf (ts - s) true
          | _ => Fin ((ts - s) / (d * 1000))
          end) (Fin 1).
Proof. intros H. unfold progress_at, durationMs. rewrite H. reflexivity. Qed.

Section NonPositiveDuration.

Variables (p : CounterProps) (d : Q).
Hypothesis duration_is : duration_of p = Fin d.

(** With a zero duration the quotient is [0 / 0] or [x / 0]: the tick
    that finds no time elapsed computes [NaN], the tick that finds some
    computes 1; neither asks for another frame. *)
Lemma zero_duration_tick ts st :
  d == 0 ->
  latch (startTime st) ts <= ts ->
  lt (progress_at p (latch (startTime st) ts) ts) (Fin 1) = false /\
  (unset (startTime st) = true -> count (animate p ts st) = NaN).
Proof.
  intros Hd Hs.
  assert (E : progress_at p (latch (startTime st) ts) ts =
              JS.min (signed_inf (ts - latch (startTime st) ts) true) (Fin 1)).
  { rewrite (progress_at_unfold p d) by assumption.
    assert (Z0 : (d * 1000 ?= 0) = Eq)
      by (apply Qeq_alt; rewrite Hd; reflexivity).
    now rewrite Z0. }
  split.
  - rewrite E. unfold signed_inf.
    destruct (_ ?= 0) eqn:C; auto.
    apply Qlt_alt in C. exfalso. lra.
  - intros U. rewrite animate_count, E.
    assert (L : latch (startTime st) ts = ts).
    { unfold latch. destruct (startTime st) as [s|]; auto.
      simpl in U. now rewrite U. }
    rewrite L. unfold signed_inf.
    assert (Z0 : (ts - ts ?= 0) = Eq) by (apply Qeq_alt; ring).
    rewrite Z0. reflexivity.
Qed.

(** With a negative duration the quotient is never positive, hence
    always below 1. *)
Lemma negative_duration_tick ts st :
  d < 0 ->
  latch (startTime st) ts <= ts ->
  lt (progress_at p (latch (startTime st) ts) ts) (Fin 1) = true.
Proof.
  intros Hd Hs. rewrite (progress_at_unfold p d) by assumption.
  set (el := ts - latch (startTime st) ts).
  assert (HD : d * 1000 < 0) by lra.
  assert (C : (d * 1000 ?= 0) = Lt) by now apply Qlt_alt.
  rewrite C.
  assert (Hq : el / (d * 1000) <= 0).
  { assert (Hp : 0 <= el / - (d * 1000))
      by (apply Qle_shift_div_l; unfold el; lra).
    assert (Heq : el / (d * 1000) == - (el / - (d * 1000))).
    { field. intros H. rewrite H in HD. now apply Qlt_irrefl in HD. }
    rewrite Heq. lra. }
  assert (H1 : el / (d * 1000) < 1) by lra.
  assert (C1 : (el / (d * 1000) ?= 1) = Lt) by now apply Qlt_alt.
  unfold JS.min, lt. now rewrite C1, C1.
Qed.

(** C7, as the code has it.  No arithmetic of the tick can fail: a zero
    divisor gives [NaN] or an infinity.  With duration 0 a tick requests
    no further frame, and the first tick of the run writes [NaN].  With
    a negative duration every tick requests another frame, so the run
    goes on until the instance is unmounted.  (Timestamps are taken not
    to precede the start.) *)
Theorem nonpositive_duration st h ts :
  d <= 0 ->
  raf_queue st = [h] ->
  latch (startTime st) ts <= ts ->
  let st' := step p st (Frame ts) in
  (d == 0 -> raf_queue st' = [] /\
             (unset (startTime st) = true -> count st' = NaN)) /\
  (d < 0 -> raf_queue st' = [raf_next st]).
Proof.
  intros Hd HQ Hs st'. unfold st'. simpl.
  rewrite (on_frame_single _ _ _ _ HQ). split; intros H.
  - destruct (zero_duration_tick ts (set_raf [] (raf_next st) st) H Hs)
      as (L & C).
    split; [|exact C]. rewrite animate_raf_queue. simpl in *. now rewrite L.
  - pose proof (negative_duration_tick ts (set_raf [] (raf_next st) st) H Hs)
      as L.
    rewrite animate_raf_queue. simpl in *. now rewrite L.
Qed.

(** A run with a negative duration on non-decreasing timestamps never
    empties the queue. *)
Lemma negative_duration_never_stops (times : nat -> Q) :
  d < 0 ->
  (forall k, times k <= times (S k)) ->
  forall n,
    let st := run p (Intersect true :: map (fun k => Frame (times k)) (seq 0 n))
                  mount in
    (exists h, raf_queue st = [h]) /\
    match startTime st with
    | Some s => s <= times n
    | None => True
    end.
Proof.
  intros Hd Hmono n. induction n as [|n IH].
  - simpl. split; [now exists 1%nat | exact I].
  - rewrite seq_S, map_app. simpl Nat.add. cbv zeta.
    change (Intersect true :: ?l ++ ?r) with ((Intersect true :: l) ++ r).
    rewrite run_app.
    set (st := run p (Intersect true :: map (fun k => Frame (times k)) (seq 0 n))
                   mount) in *.
    destruct IH as ((h & HQ) & Hs).
    assert (L : latch (startTime st) (times n) <= times n).
    { unfold latch. destruct (startTime st) as [s|]; [|apply Qle_refl].
      destruct (Qeq_bool s 0); [apply Qle_refl | exact Hs]. }
    simpl. rewrite (on_frame_single _ _ _ _ HQ). split.
    + exists (raf_next st). rewrite animate_raf_queue.
      pose proof (negative_duration_tick (times n)
                    (set_raf [] (raf_next st) st) Hd L) as T.
      simpl in *. now rewrite T.
    + rewrite animate_startTime. simpl.
      eapply Qle_trans; [exact L | apply Hmono].
Qed.

End NonPositiveDuration.

Lemma every_16ms_mono k : every_16ms k <= every_16ms (S k).
Proof.
  unfold every_16ms. rewrite <- Zle_Qle. lia.
Qed.

(** C7 fails for a negative duration: with [duration = -1] and a frame
    every 16 ms the run never stops scheduling. *)
Lemma negative_duration_loops :
  ~ stops_scheduling negative_duration every_16ms.
Proof.
  intros (n & E).
  destruct (negative_duration_never_stops negative_duration
              (-1) eq_refl every_16ms eq_refl every_16ms_mono n)
    as ((h & HQ) & _).
  congruence.
Qed.

(** ** The rendered text *)

Lemma append_empty_r (s : string) : (s ++ "")%string = s.
Proof. induction s as [|c s IH]; simpl; [reflexivity | now rewrite IH]. Qed.

(** An integer is written as its sign and its grouped digits, without a
    fraction. *)
Lemma toLocaleString_integer L z :
  toLocaleString L (of_Z z) =
  ((if (z <? 0)%Z then "-" else "")
   ++ grouped (group_separator L) (digits (Z.abs z)))%string.
Proof.
  unfold toLocaleString, of_Z.
  assert (M : Qfloor (Qabs (inject_Z z) * 1000 + (1 # 2)) = (Z.abs z * 1000)%Z).
  { unfold Qfloor, Qabs, inject_Z, Qplus, Qmult. simpl.
    symmetry.
    apply (Z.div_unique (Z.abs z * 1000 * 2 + 1) 2 _ 1); lia. }
  rewrite M. rewrite Z.div_mul, Z.mod_mul by discriminate. simpl.
  rewrite append_empty_r. f_equal.
  unfold Qcompare, inject_Z. simpl. rewrite Z.mul_1_r.
  unfold Z.ltb. now destruct (z ?= 0)%Z.
Qed.


(** The separators at work: the settled hero counter of the sibling page in
    two locales, and a suffix made of digits, which is not regrouped. *)
Example rendered_text_grouping :
  let p := {| end_ := of_Z 12847; duration := None; suffix := Some "000" |} in
  let settled := run p [Intersect true; Frame 5; Frame 2005] mount in
  render_plain en_US settled = "12,847" /\
  render_plain de_DE settled = "12.847" /\
  render en_US p settled = "12,847000".
Proof. repeat split. Qed.

(** ** The theorems at concrete runs *)

Ltac by_computation := vm_compute; first [reflexivity | discriminate | lia].

Ltac frames_sorted :=
  repeat (constructor; try (unfold Qle; simpl; lia)).

Lemma exact_settlement_witness :
  raf_queue (run hero half_way mount) <> [] /\
  2 * 1000 <= 2005 - latch (startTime (run hero half_way mount)) 2005 /\
  count (step hero (run hero half_way mount) (Frame 2005)) = of_Z 12847 /\
  raf_queue (step hero (run hero half_way mount) (Frame 2005)) = [] /\
  count (run hero [Frame 2021; Intersect false; Unmount]
           (step hero (run hero half_way mount) (Frame 2005))) = of_Z 12847.
Proof.
  assert (HQ : raf_queue (run hero half_way mount) <> []) by by_computation.
  assert (Hover : 2 * 1000 <=
                  2005 - latch (startTime (run hero half_way mount)) 2005)
    by by_computation.
  split; [exact HQ | split; [exact Hover|]].
  pose proof (exact_settlement hero 2 eq_refl eq_refl 12847 half_way 2005
                [Frame 2021; Intersect false; Unmount]
                eq_refl (Pos2Z.is_nonneg _) HQ Hover) as H.
  cbv zeta in H. destruct H as (A & B & C & _).
  split; [exact A | split; [exact B | exact C]].
Defined.


Lemma range_and_monotonicity_witness :
  StronglySorted Qle (frame_times full_run) /\
  exists zs : list Z,
    rev (writes (run hero full_run mount)) = map of_Z zs /\
    count (run hero full_run mount) = of_Z (last zs 0%Z) /\
    Forall (fun z => (0 <= z <= 12847)%Z) zs /\
    StronglySorted Z.le zs /\
    (12847%Z = 0%Z ->
     Forall (eq 0%Z) zs /\ count (run hero full_run mount) = of_Z 0).
Proof.
  assert (Hs : StronglySorted Qle (frame_times full_run))
    by (simpl; frames_sorted).
  split; [exact Hs|].
  pose proof (range_and_monotonicity hero 2 eq_refl eq_refl 12847 eq_refl
                full_run (Pos2Z.is_nonneg _) Hs) as H.
  cbv zeta in H. exact H.
Defined.

Lemma worked_scenario_witness :
  startTime (run hero first_tick mount) = Some 5 /\
  ~ 5 == 0 /\
  raf_queue (run hero first_tick mount) <> [] /\
  durationMs hero = Fin 2000 /\
  count (step hero (run hero first_tick mount) (Frame (5 + 1000))) =
    of_Z 6423 /\
  count (run hero [Frame (5 + 2000); Frame (5 + 2016)]
           (run hero first_tick mount)) = of_Z 12847.
Proof.
  assert (Hs : startTime (run hero first_tick mount) = Some 5)
    by by_computation.
  assert (H5 : ~ 5 == 0) by by_computation.
  assert (HQ : raf_queue (run hero first_tick mount) <> [])
    by by_computation.
  pose proof (worked_scenario None None first_tick 5
                (or_introl eq_refl) Hs H5 HQ) as H.
  cbv zeta in H. destruct H as (A & B & C).
  split; [exact Hs | split; [exact H5 | split; [exact HQ|]]].
  split; [exact A | split; [exact B|]].
  exact (C 2000 [Frame (5 + 2016)] (Qle_refl 2000)).
Defined.

Lemma nonpositive_duration_witness :
  (raf_queue (step zero_duration (run zero_duration seen mount) (Frame 16)) = [] /\
   count (step zero_duration (run zero_duration seen mount) (Frame 16)) = NaN) /\
  raf_queue (step negative_duration (run negative_duration seen mount) (Frame 16))
  = [raf_next (run negative_duration seen mount)].
Proof.
  split.
  - assert (HQ : raf_queue (run zero_duration seen mount) = [1%nat])
      by by_computation.
    assert (L : latch (startTime (run zero_duration seen mount)) 16 <= 16)
      by by_computation.
    pose proof (nonpositive_duration zero_duration 0 eq_refl
                  (run zero_duration seen mount) 1%nat 16
                  (Qle_refl 0) HQ L) as H.
    cbv zeta in H. destruct H as (Z0 & _).
    destruct (Z0 (Qeq_refl 0)) as (A & B).
    split; [exact A | apply B; by_computation].
  - assert (HQ : raf_queue (run negative_duration seen mount) = [1%nat])
      by by_computation.
    assert (L : latch (startTime (run negative_duration seen mount)) 16 <= 16)
      by by_computation.
    assert (N : -1 <= 0) by by_computation.
    pose proof (nonpositive_duration negative_duration (-1) eq_refl
                  (run negative_duration seen mount) 1%nat 16
                  N HQ L) as H.
    cbv zeta in H. destruct H as (_ & Neg).
    apply Neg. by_computation.
Defined.


Lemma negative_target_run_witness :
  (-300 < 0)%Z /\
  StronglySorted Qle (frame_times half_way) /\
  (exists zs : list Z,
     rev (writes (run downward half_way mount)) = map of_Z zs /\
     count (run downward half_way mount) = of_Z (last zs 0%Z) /\
     Forall (fun z => (-300 <= z <= 0)%Z) zs /\
     StronglySorted Z.ge zs) /\
  raf_queue (run downward [Intersect true; Frame 5; Frame 505] mount) <> [] /\
  count (step downward (run downward [Intersect true; Frame 5; Frame 505] mount)
           (Frame 1005)) = of_Z (-300).
Proof.
  assert (Hs : StronglySorted Qle (frame_times half_way))
    by (simpl; frames_sorted).
  assert (Hs' : StronglySorted Qle
                  (frame_times [Intersect true; Frame 5; Frame 505]))
    by (simpl; frames_sorted).
  assert (Hn : (-300 < 0)%Z) by reflexivity.
  assert (HQ : raf_queue (run downward [Intersect true; Frame 5; Frame 505]
                            mount) <> []) by by_computation.
  pose proof (negative_target_run downward 1 eq_refl eq_refl (-300) eq_refl
                half_way Hn Hs) as H.
  pose proof (negative_target_run downward 1 eq_refl eq_refl (-300) eq_refl
                [Intersect true; Frame 5; Frame 505] Hn Hs') as H'.
  cbv zeta in H, H'. destruct H as (A & _). destruct H' as (_ & B).
  split; [exact Hn | split; [exact Hs | split; [exact A|]]].
  split; [exact HQ|].
  assert (Hover : 1 * 1000 <=
            1005 - latch (startTime (run downward
                                       [Intersect true; Frame 5; Frame 505]
                                       mount)) 1005) by by_computation.
  destruct (B 1005 [] HQ Hover) as (C & _). exact C.
Defined.

(** * More about the counter *)

(** ** The frame-request queue *)

(** On every trace the browser holds at most one frame request of the
    instance, and when it holds one, it is the one [animationFrame]
    remembers and the instance is mounted and in view. *)
Theorem at_most_one_request p evs :
  let st := run p evs mount in
  raf_queue st = [] \/
  exists h, raf_queue st = [h] /\ animationFrame st = Some h /\
            mounted st = true /\ isInView st = true.
Proof.
  intros st.
  destruct (inv_queue st (Inv_run p evs mount Inv_mount))
    as [HQ | (h & HQ & A & _ & M & V)]; [now left | right].
  exists h. auto.
Qed.

(** ** The first tick *)

Lemma of_Z_inj a b : of_Z a = of_Z b -> a = b.
Proof. unfold of_Z, inject_Z. intros H. now inversion H. Qed.

Lemma floor_mul_fin x e : floor (mul (Fin x) (Fin e)) = of_Z (displayed e x).
Proof. reflexivity. Qed.

(** The first tick of a run (start not yet latched) finds no time elapsed:
    for a finite [end] and a finite duration other than 0 it writes 0,
    latches its timestamp and asks for another frame, so a run takes at
    least two ticks. *)
Theorem first_tick_writes_zero p d e st h ts :
  duration_of p = Fin d ->
  ~ d == 0 ->
  end_ p = Fin e ->
  raf_queue st = [h] ->
  unset (startTime st) = true ->
  let st' := step p st (Frame ts) in
  count st' = of_Z 0 /\ startTime st' = Some ts /\
  raf_queue st' = [raf_next st].
Proof.
  intros Hd Hnz He HQ U st'. unfold st'. simpl.
  rewrite (on_frame_single _ _ _ _ HQ).
  assert (L : latch (startTime st) ts = ts).
  { unfold latch. destruct (startTime st) as [s|]; auto.
    simpl in U. now rewrite U. }
  assert (P : progress_at p ts ts = Fin ((ts - ts) / (d * 1000))).
  { rewrite (progress_at_unfold p d) by assumption.
    assert (Z0 : (ts - ts) / (d * 1000) == 0)
      by (unfold Qdiv; setoid_replace (ts - ts) with 0 by ring; ring).
    assert (C : ((ts - ts) / (d * 1000) ?= 1) = Lt)
      by (apply Qlt_alt; rewrite Z0; reflexivity).
    destruct (d * 1000 ?= 0) eqn:E.
    - apply Qeq_alt in E. exfalso. apply Hnz.
      apply (Qmult_inj_r d 0 1000); [discriminate | rewrite E; ring].
    - unfold JS.min. now rewrite C.
    - unfold JS.min. now rewrite C. }
  assert (Z0 : (ts - ts) / (d * 1000) == 0)
    by (unfold Qdiv; setoid_replace (ts - ts) with 0 by ring; ring).
  repeat split.
  - rewrite animate_count. simpl startTime.
    rewrite L, P, He, floor_mul_fin.
    f_equal. rewrite <- (displayed_zero e). apply displayed_comp, Z0.
  - rewrite animate_startTime. simpl startTime. now rewrite L.
  - rewrite animate_raf_queue. simpl startTime. rewrite L, P.
    assert (C : ((ts - ts) / (d * 1000) ?= 1) = Lt)
      by (apply Qlt_alt; rewrite Z0; reflexivity).
    unfold lt. now rewrite C.
Qed.

(** ** Where the run ends *)

Lemma Qfloor_unique (y : Q) (n : Z) :
  inject_Z n <= y -> y < inject_Z (n + 1) -> Qfloor y = n.
Proof.
  intros Hlo Hhi.
  assert (A : (n <= Qfloor y)%Z).
  { rewrite <- (Qfloor_Z n). now apply Qfloor_resp_le. }
  assert (B : (Qfloor y < n + 1)%Z).
  { rewrite Zlt_Qlt. eapply Qle_lt_trans; [apply Qfloor_le | exact Hhi]. }
  lia.
Qed.

Section EndOfRun.

Variables (p : CounterProps) (d : Q).
Hypothesis duration_is : duration_of p = Fin d.
Hypothesis duration_pos : 0 < d.

(** The terminal tick writes [Math.floor(end)]: a target that is not an
    integer is never displayed, the run settles on the integer below it. *)
Theorem settles_on_floor_of_end e st h ts :
  end_ p = Fin e ->
  raf_queue st = [h] ->
  d * 1000 <= ts - latch (startTime st) ts ->
  let st' := step p st (Frame ts) in
  count st' = of_Z (Qfloor e) /\ raf_queue st' = [] /\
  (count st' = end_ p -> e == inject_Z (Qfloor e)).
Proof.
  intros He HQ Hover st'.
  pose proof (quotient_over d duration_pos _ _ Hover) as H1.
  assert (C : count st' = of_Z (Qfloor e)).
  { unfold st'. simpl. rewrite (on_frame_single _ _ _ _ HQ).
    rewrite (tick_count p d duration_is duration_pos e _ _ He). simpl startTime.
    f_equal. unfold displayed. apply Qfloor_comp.
    rewrite clamp1_above by exact H1. ring. }
  split; [exact C | split].
  - unfold st'. simpl. rewrite (on_frame_single _ _ _ _ HQ).
    rewrite (tick_raf_queue p d duration_is duration_pos). simpl.
    destruct (_ ?= 1) eqn:E; auto.
    apply Qlt_alt in E. exfalso. apply (Qlt_irrefl 1).
    eapply Qle_lt_trans; eassumption.
  - rewrite C, He. unfold of_Z. intros E. injection E as E'.
    apply Qeq_sym.
    exact (eq_ind _ (fun x => inject_Z (Qfloor e) == x) (Qeq_refl _) _ E').
Qed.



End EndOfRun.

(** ** An infinite duration *)

(** With [duration = Infinity] the quotient is 0 at every tick: the count
    stays 0 and every tick requests another frame, whatever the
    timestamps. *)
Theorem infinite_duration_never_settles p e st h ts :
  duration_of p = PInf ->
  end_ p = Fin e ->
  raf_queue st = [h] ->
  let st' := step p st (Frame ts) in
  count st' = of_Z 0 /\ raf_queue st' = [raf_next st].
Proof.
  intros Hd He HQ st'. unfold st'. simpl.
  rewrite (on_frame_single _ _ _ _ HQ).
  assert (P : forall s, progress_at p s ts = Fin 0).
  { intros s. unfold progress_at, durationMs. rewrite Hd. reflexivity. }
  split.
  - rewrite animate_count, P, He, floor_mul_fin.
    now rewrite displayed_zero.
  - rewrite animate_raf_queue, P. reflexivity.
Qed.

(** * The navigation anchors *)

Ltac by_cases_on_char c :=
  destruct c as [[] [] [] [] [] [] [] []]; reflexivity.

Lemma lower_not_upper c : is_upper (lower c) = false.
Proof. by_cases_on_char c. Qed.

Lemma lower_space c : is_space (lower c) = is_space c.
Proof. by_cases_on_char c. Qed.

Lemma lower_quote c : Ascii.eqb (lower c) "'" = Ascii.eqb c "'".
Proof. by_cases_on_char c. Qed.

Lemma lower_blank c : Ascii.eqb (lower c) " " = Ascii.eqb c " ".
Proof. by_cases_on_char c. Qed.

Lemma blank_is_space c : Ascii.eqb c " " = true -> is_space c = true.
Proof. intros H. apply Ascii.eqb_eq in H. now subst. Qed.

Lemma all_chars_app f a b :
  all_chars f (a ++ b) = all_chars f a && all_chars f b.
Proof.
  induction a as [|x a IH]; simpl; [reflexivity|].
  now rewrite IH, andb_assoc.
Qed.

Lemma occurrences_app c a b :
  occurrences c (a ++ b) = (occurrences c a + occurrences c b)%nat.
Proof.
  induction a as [|x a IH]; simpl; [reflexivity|].
  destruct (Ascii.eqb x c); simpl; now rewrite IH.
Qed.

Lemma toLowerCase_no_upper s :
  all_chars (fun c => negb (is_upper c)) (toLowerCase s) = true.
Proof.
  induction s as [|x s IH]; simpl; [reflexivity|].
  now rewrite lower_not_upper, IH.
Qed.

Lemma toLowerCase_quotes s :
  occurrences "'" (toLowerCase s) = occurrences "'" s.
Proof.
  induction s as [|x s IH]; simpl; [reflexivity|].
  now rewrite lower_quote, IH.
Qed.

Lemma toLowerCase_blanks s :
  occurrences " " (toLowerCase s) = occurrences " " s.
Proof.
  induction s as [|x s IH]; simpl; [reflexivity|].
  now rewrite lower_blank, IH.
Qed.

(** Deleting the runs of whitespace leaves no whitespace and keeps what
    held of the other characters. *)
Lemma replace_runs_clean f s : forall b,
  all_chars f s = true ->
  all_chars (fun c => negb (is_space c) && f c) (replace_runs "" b s) = true.
Proof.
  induction s as [|x s IH]; intros b H; simpl in *; [reflexivity|].
  apply andb_prop in H. destruct H as (Hx & Hs).
  destruct (is_space x) eqn:E.
  - destruct b; simpl; now apply IH.
  - simpl. rewrite E, Hx. simpl. now apply IH.
Qed.

Lemma replace_runs_occurrences c s : forall b,
  is_space c = false ->
  occurrences c (replace_runs "" b s) = occurrences c s.
Proof.
  induction s as [|x s IH]; intros b H; simpl; [reflexivity|].
  destruct (is_space x) eqn:E.
  - assert (N : Ascii.eqb x c = false).
    { destruct (Ascii.eqb x c) eqn:X; auto.
      apply Ascii.eqb_eq in X. congruence. }
    rewrite N. destruct b; simpl; now apply IH.
  - simpl. destruct (Ascii.eqb x c); now rewrite IH.
Qed.

Lemma replace_first_keeps f c s :
  all_chars f s = true -> all_chars f (replace_first c "" s) = true.
Proof.
  induction s as [|x s IH]; intros H; simpl in *; [reflexivity|].
  apply andb_prop in H. destruct H as (Hx & Hs).
  destruct (Ascii.eqb x c); simpl; [exact Hs|].
  now rewrite Hx, IH.
Qed.

Lemma replace_first_occurrences c r s :
  occurrences c (replace_first c r s) =
  match occurrences c s with
  | O => O
  | S n => (occurrences c r + n)%nat
  end.
Proof.
  induction s as [|x s IH]; simpl; [reflexivity|].
  destruct (Ascii.eqb x c) eqn:E.
  - now rewrite occurrences_app.
  - simpl. now rewrite E, IH.
Qed.

Lemma replace_first_absent c r s :
  occurrences c s = 0%nat -> replace_first c r s = s.
Proof.
  induction s as [|x s IH]; simpl; [reflexivity|].
  destruct (Ascii.eqb x c); [discriminate|].
  intros H. now rewrite IH.
Qed.

Lemma replaceAll_absent c r s :
  occurrences c s = 0%nat -> replaceAll c r s = s.
Proof.
  induction s as [|x s IH]; simpl; [reflexivity|].
  destruct (Ascii.eqb x c); [discriminate|].
  intros H. now rewrite IH.
Qed.

Lemma replaceAll_occurrences c x s :
  Ascii.eqb c x = false ->
  occurrences x (replaceAll c "" s) = occurrences x s.
Proof.
  intros N. induction s as [|y s IH]; simpl; [reflexivity|].
  destruct (Ascii.eqb y c) eqn:E.
  - apply Ascii.eqb_eq in E. subst y. simpl. now rewrite N.
  - simpl. now rewrite IH.
Qed.

Lemma replaceAll_removes c s : occurrences c (replaceAll c "" s) = 0%nat.
Proof.
  induction s as [|y s IH]; simpl; [reflexivity|].
  destruct (Ascii.eqb y c) eqn:E; simpl; [exact IH|].
  now rewrite E.
Qed.

(** The anchor of [src/app/page.tsx] holds no whitespace and no upper-case
    letter, whatever the link text. *)
Theorem raja_href_clean link :
  all_chars (fun c => negb (is_space c) && negb (is_upper c)) (raja_href link)
  = true.
Proof.
  unfold raja_href, replace_whitespace_runs. simpl.
  apply replace_first_keeps, replace_runs_clean, toLowerCase_no_upper.
Qed.

(** [.replace("'", '')] has a string for pattern and removes the first
    apostrophe only: the anchor holds one apostrophe less than the link
    text, so a text with two keeps one in its anchor. *)
Theorem raja_href_apostrophes link :
  occurrences "'" (raja_href link) = Nat.pred (occurrences "'" link).
Proof.
  unfold raja_href, replace_whitespace_runs. simpl.
  rewrite replace_first_occurrences, replace_runs_occurrences by reflexivity.
  rewrite toLowerCase_quotes. now destruct (occurrences "'" link).
Qed.

(** Every link of [navLinks] of [src/app/page.tsx] gets an anchor that is
    the [id] of a section of the page. *)
Theorem raja_navLinks_resolve :
  forallb (fun link => resolves raja_ids (raja_href link)) raja_navLinks = true.
Proof. reflexivity. Qed.

Lemma replace_first_other c x r s :
  Ascii.eqb c x = false ->
  occurrences x (replace_first c r s) =
  (occurrences x s +
   match occurrences c s with O => O | S _ => occurrences x r end)%nat.
Proof.
  intros N. induction s as [|y s IH]; simpl; [reflexivity|].
  destruct (Ascii.eqb y c) eqn:E.
  - apply Ascii.eqb_eq in E. subst y. rewrite N, occurrences_app. lia.
  - simpl. rewrite IH. destruct (Ascii.eqb y x); lia.
Qed.

(** The sibling page computes the anchor in two ways.  The desktop bar
    deletes every space; the mobile menu and the footer put a hyphen for
    the first space and keep the others.  The two anchors of a link are the
    same exactly when the link text has no space. *)
Theorem taja_hrefs_agree_iff_no_space link :
  taja_href_desktop link = taja_href_menu link <->
  occurrences " " link = 0%nat.
Proof.
  unfold taja_href_desktop, taja_href_menu. split.
  - intros H. injection H as H.
    assert (C : occurrences "-" (replaceAll " " "" (toLowerCase link)) =
                occurrences "-" (replace_first " " "-" (toLowerCase link)))
      by now rewrite H.
    rewrite replaceAll_occurrences in C by reflexivity.
    rewrite replace_first_other in C by reflexivity.
    rewrite toLowerCase_blanks in C.
    destruct (occurrences " " link); [reflexivity|]. simpl in C. lia.
  - intros H. rewrite <- toLowerCase_blanks in H.
    now rewrite replaceAll_absent, replace_first_absent.
Qed.

(** Spaces in the sibling page's anchors: none in the desktop bar's, one
    less than in the link text in the menu's and the footer's, which
    therefore still holds a space when the text has two or more. *)
Theorem taja_href_spaces link :
  occurrences " " (taja_href_desktop link) = 0%nat /\
  occurrences " " (taja_href_menu link) = Nat.pred (occurrences " " link).
Proof.
  unfold taja_href_desktop, taja_href_menu. simpl. split.
  - apply replaceAll_removes.
  - rewrite replace_first_occurrences, toLowerCase_blanks.
    now destruct (occurrences " " link).
Qed.

(** On the sibling page every link of [navLinks] resolves from the desktop
    bar; from the mobile menu and the footer all resolve but
    "How It Works", whose anchor there is [#how-it works]. *)
Theorem taja_navLinks_resolve :
  forallb (fun link => resolves taja_ids (taja_href_desktop link)) taja_navLinks
  = true /\
  filter (fun link => negb (resolves taja_ids (taja_href_menu link))) taja_navLinks
  = ["How It Works"] /\
  taja_href_menu "How It Works" = "#how-it works".
Proof. repeat split. Qed.

(** * The accordion and the landing component *)

(** An item of the accordion starts closed and each click flips it: after
    [n] clicks the answer is in the tree, and the chevron turned, exactly
    when [n] is odd. *)
Theorem FAQItem_after_clicks answer n :
  let isOpen := Nat.iter n FAQItem_click false in
  isOpen = Nat.odd n /\
  shown_answer (FAQItem_render answer isOpen) =
    (if Nat.odd n then Some answer else None) /\
  chevron_class (FAQItem_render answer isOpen) =
    ("w-5 h-5 text-gray-600 transition-transform duration-300 "
     ++ (if Nat.odd n then "rotate-180" else ""))%string.
Proof.
  intros isOpen.
  assert (E : isOpen = Nat.odd n).
  { unfold isOpen. induction n as [|n IH]; [reflexivity|].
    simpl Nat.iter. rewrite IH. unfold FAQItem_click.
    now rewrite Nat.odd_succ, Nat.negb_odd. }
  rewrite E. repeat split.
Qed.

Lemma run_page_app evs1 evs2 st :
  run_page (evs1 ++ evs2) st = run_page evs2 (run_page evs1 st).
Proof. apply fold_left_app. Qed.

Lemma page_unmounted_absorbing evs : forall st,
  page_mounted st = false -> run_page evs st = st.
Proof.
  induction evs as [|e evs IH]; intros st M; simpl; [reflexivity|].
  assert (E : page_step st e = st) by (unfold page_step; now rewrite M).
  rewrite E. now apply IH.
Qed.

Lemma page_step_mounted st e :
  page_mounted st = true -> is_unmount e = false ->
  page_mounted (page_step st e) = true.
Proof.
  intros M U. unfold page_step. rewrite M. simpl.
  destruct e; simpl in *; try discriminate; auto.
  now destruct (mobileMenuOpen st).
Qed.

Lemma page_stays_mounted evs : forall st,
  page_mounted st = true -> existsb is_unmount evs = false ->
  page_mounted (run_page evs st) = true.
Proof.
  induction evs as [|e evs IH]; intros st M U; simpl in *; [exact M|].
  apply orb_false_iff in U. destruct U as (Ue & U).
  apply IH; [now apply page_step_mounted | exact U].
Qed.

Lemma scrolled_kept evs : forall st,
  existsb is_scroll evs = false ->
  scrolled (run_page evs st) = scrolled st.
Proof.
  induction evs as [|e evs IH]; intros st H; simpl in *; [reflexivity|].
  apply orb_false_iff in H. destruct H as (He & H).
  rewrite IH by exact H. unfold page_step.
  destruct (page_mounted st); simpl; [|reflexivity].
  destruct e; simpl in *; try discriminate; auto.
  now destruct (mobileMenuOpen st).
Qed.

Lemma menu_flips evs : forall st,
  page_mounted st = true ->
  existsb is_unmount evs = false ->
  existsb is_menu_link evs = false ->
  mobileMenuOpen (run_page evs st) =
  xorb (mobileMenuOpen st) (Nat.odd (List.length (filter is_menu_button evs))).
Proof.
  induction evs as [|e evs IH]; intros st M U L; simpl in *.
  - now rewrite xorb_false_r.
  - apply orb_false_iff in U. destruct U as (Ue & U).
    apply orb_false_iff in L. destruct L as (Le & L).
    rewrite IH; auto using page_step_mounted.
    unfold page_step. rewrite M. simpl.
    destruct e; simpl; try discriminate; auto.
    rewrite Nat.odd_succ, <- Nat.negb_odd.
    now destruct (mobileMenuOpen st), (Nat.odd _).
Qed.

(** After a scroll event at position [y], and until the next one, the
    navigation bar is in its scrolled style exactly when [y > 10],
    whatever happened before: position 10 itself does not count, and
    clicks on the menu change nothing about it. *)
Theorem scrolled_follows_last_scroll pre y post :
  existsb is_unmount pre = false ->
  existsb is_scroll post = false ->
  let st := run_page (pre ++ Scroll y :: post) mount_page in
  scrolled st = match y ?= 10 with Gt => true | _ => false end /\
  (10 < y -> raja_nav_class st =
     "fixed top-0 w-full z-50 transition-all duration-300 bg-white/90 backdrop-blur-lg shadow-md") /\
  (y <= 10 -> raja_nav_class st =
     "fixed top-0 w-full z-50 transition-all duration-300 bg-white lg:bg-transparent" /\
     taja_nav_class st =
     "fixed top-0 w-full z-50 transition-all duration-300 bg-transparent").
Proof.
  intros U S st.
  assert (E : scrolled st = match y ?= 10 with Gt => true | _ => false end).
  { unfold st. rewrite run_page_app. simpl. rewrite scrolled_kept by exact S.
    unfold page_step.
    now rewrite (page_stays_mounted pre mount_page eq_refl U). }
  split; [exact E|]. unfold raja_nav_class, taja_nav_class. rewrite E.
  split; intros H.
  - assert (C : (y ?= 10) = Gt) by now apply Qgt_alt.
    now rewrite C.
  - assert (C : (y ?= 10) <> Gt) by now apply Qle_alt.
    destruct (y ?= 10); auto. now exfalso.
Qed.

(** The bar starts in its unscrolled style and stays so until the first
    scroll event: the effect adds the listener but does not read the
    position, so a page that is mounted already scrolled does not show
    it.  Once the component is unmounted the listener is gone and no event
    changes the state. *)
Theorem scroll_listener_lifetime evs later :
  (existsb is_scroll evs = false ->
   scrolled (run_page evs mount_page) = false) /\
  run_page (evs ++ PageUnmount :: later) mount_page =
  run_page (evs ++ [PageUnmount]) mount_page.
Proof.
  split.
  - intros H. now rewrite scrolled_kept.
  - rewrite !run_page_app. simpl.
    apply page_unmounted_absorbing.
    unfold page_step. destruct (page_mounted (run_page evs mount_page)) eqn:M;
      simpl; auto.
Qed.

(** The mobile menu: a click on one of its links closes it, and from then
    on it is open exactly after an odd number of clicks on the button;
    scrolling does not touch it. *)
Theorem menu_closed_by_link pre post :
  existsb is_unmount (pre ++ post) = false ->
  existsb is_menu_link post = false ->
  mobileMenuOpen (run_page (pre ++ MenuLink :: post) mount_page) =
  Nat.odd (List.length (filter is_menu_button post)).
Proof.
  intros U L. rewrite existsb_app in U.
  apply orb_false_iff in U. destruct U as (Upre & Upost).
  rewrite run_page_app. simpl.
  pose proof (page_stays_mounted pre mount_page eq_refl Upre) as M.
  set (st := run_page pre mount_page) in *.
  assert (C : mobileMenuOpen (page_step st MenuLink) = false /\
              page_mounted (page_step st MenuLink) = true).
  { unfold page_step. rewrite M. simpl.
    destruct (mobileMenuOpen st) eqn:O; simpl; auto. }
  destruct C as (C & M').
  rewrite menu_flips by assumption. now rewrite C.
Qed.

(** * The button *)


(** * Reaching the target *)

Section ReachingTheTarget.

Variables (p : CounterProps) (d : Q) (target : Z).
Hypothesis duration_is : duration_of p = Fin d.
Hypothesis duration_pos : 0 < d.
Hypothesis end_is : end_ p = of_Z target.

(** While the instance stays mounted, a run that has started either has a
    tick pending or shows the target. *)
Lemma pending_or_settled evs : forall st,
  Inv st -> isInView st = true ->
  raf_queue st <> [] \/ count st = of_Z target ->
  no_unmount evs = true ->
  isInView (run p evs st) = true /\
  (raf_queue (run p evs st) <> [] \/ count (run p evs st) = of_Z target).
Proof.
  induction evs as [|e evs IH]; intros st I V H N; simpl in *; auto.
  apply andb_prop in N. destruct N as (Ne & N).
  destruct e as [v | ts |]; simpl; [| |discriminate].
  - rewrite on_intersect_started by exact V. now apply IH.
  - apply IH; auto using Inv_on_frame.
    + destruct (on_frame_frame p ts st I) as (-> & _). exact V.
    + destruct (inv_queue _ I) as [HQ | (h & HQ & _)].
      * rewrite on_frame_idle by exact HQ. destruct H; [contradiction | auto].
      * destruct (Qlt_le_dec (ts - latch (startTime st) ts) (d * 1000))
          as [Hun | Hov].
        -- left. rewrite (on_frame_single _ _ _ _ HQ).
           rewrite (tick_raf_queue p d duration_is duration_pos).
           pose proof (quotient_under d duration_pos _ _ Hun) as H1.
           assert (E : ((ts - latch (startTime st) ts) / (d * 1000) ?= 1) = Lt)
             by now apply Qlt_alt.
           simpl startTime. rewrite E. simpl. discriminate.
        -- right.
           destruct (terminal_tick p d duration_is duration_pos target st ts []
                       end_is I) as (C & _); auto.
           rewrite HQ. discriminate.
Qed.

(** As long as the instance is not unmounted, a frame that comes when the
    duration has elapsed since the latched start leaves the counter on the
    target with nothing queued, whether the terminal tick runs in this
    frame or ran in an earlier one. *)
Theorem frame_past_duration_settles evs ts :
  no_unmount evs = true ->
  d * 1000 <= ts - latch (startTime (run p (Intersect true :: evs) mount)) ts ->
  count (step p (run p (Intersect true :: evs) mount) (Frame ts)) = of_Z target /\
  raf_queue (step p (run p (Intersect true :: evs) mount) (Frame ts)) = [].
Proof.
  intros N Hover.
  set (st := run p (Intersect true :: evs) mount) in *.
  assert (I : Inv st) by apply Inv_run, Inv_mount.
  destruct (pending_or_settled evs (step p mount (Intersect true)))
    as (V & H); auto.
  { apply Inv_step, Inv_mount. }
  { left. discriminate. }
  fold (run p (Intersect true :: evs) mount) in V, H. fold st in V, H.
  destruct (inv_queue _ I) as [HQ | (h & HQ & _)].
  - simpl. rewrite on_frame_idle by exact HQ.
    destruct H; [contradiction | auto].
  - destruct (terminal_tick p d duration_is duration_pos target st ts []
                end_is I) as (C & E & _); auto.
    rewrite HQ. discriminate.
Qed.

End ReachingTheTarget.

(** * These theorems at concrete inputs *)

Lemma first_tick_writes_zero_witness :
  raf_queue (run hero seen mount) = [1%nat] /\
  unset (startTime (run hero seen mount)) = true /\
  count (step hero (run hero seen mount) (Frame 5)) = of_Z 0 /\
  startTime (step hero (run hero seen mount) (Frame 5)) = Some 5 /\
  raf_queue (step hero (run hero seen mount) (Frame 5)) =
    [raf_next (run hero seen mount)].
Proof.
  assert (HQ : raf_queue (run hero seen mount) = [1%nat]) by by_computation.
  assert (U : unset (startTime (run hero seen mount)) = true)
    by by_computation.
  assert (N : ~ 2 == 0) by by_computation.
  pose proof (first_tick_writes_zero hero 2 12847 (run hero seen mount)
                1%nat 5 eq_refl N eq_refl HQ U) as H.
  cbv zeta in H. split; [exact HQ | split; [exact U | exact H]].
Defined.

Lemma settles_on_floor_of_end_witness :
  raf_queue (run fractional half_way mount) = [3%nat] /\
  2 * 1000 <= 2005 - latch (startTime (run fractional half_way mount)) 2005 /\
  count (step fractional (run fractional half_way mount) (Frame 2005)) =
    of_Z 99 /\
  raf_queue (step fractional (run fractional half_way mount) (Frame 2005)) = [].
Proof.
  assert (HQ : raf_queue (run fractional half_way mount) = [3%nat])
    by by_computation.
  assert (Hover : 2 * 1000 <=
            2005 - latch (startTime (run fractional half_way mount)) 2005)
    by by_computation.
  pose proof (settles_on_floor_of_end fractional 2 eq_refl eq_refl (199 # 2)
                (run fractional half_way mount) 3%nat 2005
                eq_refl HQ Hover) as H.
  cbv zeta in H. destruct H as (A & B & _).
  split; [exact HQ | split; [exact Hover | split; [exact A | exact B]]].
Defined.



Lemma infinite_duration_never_settles_witness :
  raf_queue (run endless half_way mount) = [3%nat] /\
  count (step endless (run endless half_way mount) (Frame 86400000)) = of_Z 0 /\
  raf_queue (step endless (run endless half_way mount) (Frame 86400000)) =
    [raf_next (run endless half_way mount)].
Proof.
  assert (HQ : raf_queue (run endless half_way mount) = [3%nat])
    by by_computation.
  pose proof (infinite_duration_never_settles endless 100
                (run endless half_way mount) 3%nat 86400000
                eq_refl eq_refl HQ) as H.
  cbv zeta in H. split; [exact HQ | exact H].
Defined.

Lemma taja_hrefs_agree_iff_no_space_witness :
  taja_href_desktop "Pricing" = taja_href_menu "Pricing" /\
  taja_href_desktop "How It Works" <> taja_href_menu "How It Works".
Proof.
  split.
  - apply (proj2 (taja_hrefs_agree_iff_no_space "Pricing")). reflexivity.
  - intros H.
    apply (proj1 (taja_hrefs_agree_iff_no_space "How It Works")) in H.
    discriminate H.
Defined.

Lemma scrolled_follows_last_scroll_witness :
  scrolled (run_page (visit_start ++ Scroll 10 :: visit_end) mount_page) = false /\
  scrolled (run_page (visit_start ++ Scroll 11 :: visit_end) mount_page) = true.
Proof.
  split.
  - exact (proj1 (scrolled_follows_last_scroll visit_start 10 visit_end
                    eq_refl eq_refl)).
  - exact (proj1 (scrolled_follows_last_scroll visit_start 11 visit_end
                    eq_refl eq_refl)).
Defined.

Lemma scroll_listener_lifetime_witness :
  scrolled (run_page visit_end mount_page) = false /\
  run_page (visit_start ++ PageUnmount :: [Scroll 0; MenuButton]) mount_page =
  run_page (visit_start ++ [PageUnmount]) mount_page.
Proof.
  split.
  - exact (proj1 (scroll_listener_lifetime visit_end []) eq_refl).
  - exact (proj2 (scroll_listener_lifetime visit_start [Scroll 0; MenuButton])).
Defined.

Lemma menu_closed_by_link_witness :
  mobileMenuOpen (run_page (visit_start ++ MenuLink :: visit_end) mount_page)
  = true.
Proof.
  exact (menu_closed_by_link visit_start visit_end eq_refl eq_refl).
Defined.


Lemma frame_past_duration_settles_witness :
  count (step hero (run hero (Intersect true :: seen_and_idle) mount)
           (Frame 2005)) = of_Z 12847 /\
  raf_queue (step hero (run hero (Intersect true :: seen_and_idle) mount)
               (Frame 2005)) = [].
Proof.
  assert (Hover : 2 * 1000 <=
            2005 - latch (startTime (run hero (Intersect true :: seen_and_idle)
                                       mount)) 2005) by by_computation.
  exact (frame_past_duration_settles hero 2 12847 eq_refl eq_refl eq_refl
           seen_and_idle 2005 eq_refl Hover).
Defined.
